(** * Configuration-value resolution of awstools ([common/config_values.go])

    A shallow embedding of [ConfigValues]: the placeholder recognition of
    [GenerateFromMap], the provider dispatch of [RefreshMap], [Refresh] and
    the retry loop of [RefreshWithRetries].

    Go maps are association lists here.  The order of the entries is the
    order in which a [range] loop visits them, which Go leaves unspecified:
    every statement below quantifies over it.  An assignment [dst[k] = v]
    overwrites the binding of [k] when there is one and adds it otherwise. *)

From Stdlib Require Import String Ascii List ZArith Lia Bool Permutation.
Import ListNotations.
Open Scope string_scope.

(** ** Strings *)

Module strings.

(** [strings.HasPrefix(s, prefix)] *)
Definition HasPrefix (s prefix : string) : bool := String.prefix prefix s.

(** [s[n:]] *)
Fixpoint drop (n : nat) (s : string) : string :=
  match n, s with
  | O, _ => s
  | S _, EmptyString => EmptyString
  | S n', String _ s' => drop n' s'
  end.

(** [s[:n]] *)
Fixpoint take (n : nat) (s : string) : string :=
  match n, s with
  | O, _ => EmptyString
  | S _, EmptyString => EmptyString
  | S n', String a s' => String a (take n' s')
  end.

(** [strings.HasSuffix(s, suffix)]:
    [len(s) >= len(suffix) && s[len(s)-len(suffix):] == suffix] *)
Definition HasSuffix (s suffix : string) : bool :=
  (String.length suffix <=? String.length s)%nat
  && String.eqb (drop (String.length s - String.length suffix) s) suffix.

(** [strings.Split(s, sep)] for a separator of one byte: the pieces of [s]
    between the occurrences of [sep], never an empty slice. *)
Fixpoint Split (s : string) (sep : ascii) : list string :=
  match s with
  | EmptyString => [EmptyString]
  | String a s' =>
      if Ascii.eqb a sep then EmptyString :: Split s' sep
      else match Split s' sep with
           | [] => [String a EmptyString]
           | part :: parts => String a part :: parts
           end
  end.

End strings.

(** ** Data model *)

Definition error := string.

Record Source := mkSource {
  Type_ : string;
  Name : string;
  Identifier : string
}.

Set Warnings "-register-all".

(** The dynamic values an [interface{}] of the configuration tree holds:
    what [encoding/json] decodes (string, nested object, null, bool, number,
    array), the [Source] placeholders of [GenerateFromMap] and the
    [map[string]string] that the SSM and Secrets Manager adapters return.
    A number is kept as the bit pattern of its float64. *)
Inductive Value :=
| VString (s : string)
| VMap (m : Map)
| VSource (s : Source)
| VStringMap (m : list (string * string))
| VNil
| VBool (b : bool)
| VNumber (bits : Z)
| VArray (items : list Value)
with Map :=
| MNil
| MCons (key : string) (value : Value) (rest : Map).

Scheme Value_mut := Induction for Value Sort Prop
  with Map_mut := Induction for Map Sort Prop.

Module M.

(** [m[k]] with the comma-ok result *)
Fixpoint get (m : Map) (k : string) : option Value :=
  match m with
  | MNil => None
  | MCons key value rest =>
      if String.eqb key k then Some value else get rest k
  end.

(** [m[k] = v] *)
Fixpoint set (m : Map) (k : string) (v : Value) : Map :=
  match m with
  | MNil => MCons k v MNil
  | MCons key value rest =>
      if String.eqb key k then MCons k v rest
      else MCons key value (set rest k v)
  end.

Fixpoint keys (m : Map) : list string :=
  match m with
  | MNil => []
  | MCons key _ rest => key :: keys rest
  end.

Fixpoint app (m1 m2 : Map) : Map :=
  match m1 with
  | MNil => m2
  | MCons key value rest => MCons key value (app rest m2)
  end.

Fixpoint mem (k : string) (l : list string) : bool :=
  match l with
  | [] => false
  | k' :: l' => String.eqb k' k || mem k l'
  end.

(** A Go map binds a key once, at every level of nesting. *)
Fixpoint wf (m : Map) : bool :=
  match m with
  | MNil => true
  | MCons key value rest =>
      negb (mem key (keys rest))
      && match value with VMap m' => wf m' | _ => true end
      && wf rest
  end.

End M.

(** [map[string]string] with the same conventions *)
Module SM.

Fixpoint get (m : list (string * string)) (k : string) : option string :=
  match m with
  | [] => None
  | (key, value) :: rest =>
      if String.eqb key k then Some value else get rest k
  end.

Fixpoint set (m : list (string * string)) (k v : string)
  : list (string * string) :=
  match m with
  | [] => [(k, v)]
  | (key, value) :: rest =>
      if String.eqb key k then (k, v) :: rest
      else (key, value) :: set rest k v
  end.

End SM.

Record ConfigValues := mkConfigValues {
  Sources : list (string * list Source);
  Static : Map;
  MaxRetries : Z;
  KeyPrefixes : list (string * string);
  ValuePrefixes : list (string * string)
}.

Definition NewConfigValues : ConfigValues :=
  {| Sources := [];
     Static := MNil;
     MaxRetries := 5;
     KeyPrefixes :=
       [ ("KMS", "KMS_");
         ("SSM", "SSM_");
         ("SECRETS_MANAGER", "SECRETS_MANAGER_");
         ("FILE", "FILE_") ];
     ValuePrefixes :=
       [ ("KMS", "kms://");
         ("SSM", "ssm://");
         ("SECRETS_MANAGER", "secrets-manager://");
         ("FILE", "file://") ] |}.

(** ** GenerateFromMap *)

(** The loop [for secretType, prefix := range c.KeyPrefixes] of the
    [case string] branch; the second component is [found]. *)
Fixpoint range_KeyPrefixes (table : list (string * string))
    (key value : string) (dst : Map) : Map * bool :=
  match table with
  | [] => (dst, false)
  | (secretType, prefix) :: table' =>
      if strings.HasPrefix key prefix then
        let key' := strings.drop (String.length prefix) key in
        let name := if strings.HasPrefix key' "_" then "" else key' in
        (M.set dst name
           (VSource {| Type_ := secretType; Name := name;
                       Identifier := value |}), true)
      else range_KeyPrefixes table' key value dst
  end.

(** The loop [for secretType, prefix := range c.ValuePrefixes]. *)
Fixpoint range_ValuePrefixes (table : list (string * string))
    (key value : string) (dst : Map) : Map * bool :=
  match table with
  | [] => (dst, false)
  | (secretType, prefix) :: table' =>
      if strings.HasPrefix value prefix then
        let value' := strings.drop (String.length prefix) value in
        (M.set dst key
           (VSource {| Type_ := secretType; Name := key;
                       Identifier := value' |}), true)
      else range_ValuePrefixes table' key value dst
  end.

(** The [case string] branch for one leaf. *)
Definition GenerateFromMap_string (c : ConfigValues)
    (key value : string) (dst : Map) : Map :=
  let (dst1, found) := range_KeyPrefixes (KeyPrefixes c) key value dst in
  let (dst2, found) :=
    if negb found then range_ValuePrefixes (ValuePrefixes c) key value dst1
    else (dst1, found) in
  if negb found then M.set dst2 key (VString value) else dst2.

(** [for key, value := range src] over the entries not yet visited, with
    the [dst] built so far. *)
Fixpoint GenerateFromMap_range (c : ConfigValues) (src dst : Map)
    {struct src} : error + Map :=
  match src with
  | MNil => inr dst
  | MCons key value rest =>
      match value with
      | VMap m =>
          match GenerateFromMap_range c m MNil with
          | inl err => inl err
          | inr val => GenerateFromMap_range c rest (M.set dst key (VMap val))
          end
      | VString s =>
          GenerateFromMap_range c rest (GenerateFromMap_string c key s dst)
      | _ => GenerateFromMap_range c rest (M.set dst key value)
      end
  end.

Definition GenerateFromMap (c : ConfigValues) (src : Map) : error + Map :=
  GenerateFromMap_range c src MNil.


(** ** The outside world

    The file system, the AWS services behind the SDK clients, the JSON and
    base64 codecs of the Go library and the clock.  A call takes the world
    as it is and returns the world after it.  [DecryptWithKMS] is a helper
    of the package that wraps the KMS Decrypt call. *)
Class Env := {
  World : Type;
  Output : Type;
  ioutil_ReadFile : string -> World -> World * (error + string);
  ssm_GetParametersByPath :
    string -> World -> World * (error + list (string * string));
  ssm_GetParameter : string -> World -> World * (error + string);
  secretsmanager_GetSecretValue :
    string -> World -> World * (error + (option string * string));
  DecryptWithKMS : string -> World -> World * (error + string);
  base64_Decode : string -> error + string;
  json_Unmarshal_strings : string -> error + list (string * string);
  json_Unmarshal_object : string -> error + Map;
  json_Marshal : Map -> error + string;
  json_Unmarshal : string -> Output -> Output * option error;
  time_Sleep : Z -> World -> World
}.

(** The clients of a [RefreshState]: nil ([false]) or constructed. *)
Record RefreshState := mkRefreshState {
  STSClient : bool;
  SecretsManagerClient : bool;
  KMSClient : bool;
  SSMClient : bool
}.

(** What a run does, in order: a provider adapter called from [RefreshMap]
    returns, [Refresh] returns, [time.Sleep] is called. *)
Inductive Event :=
| EvFetch (secretType identifier : string) (err : option error)
| EvRefresh (err : option error)
| EvSleep (d : Z).

(** [int] (64 bits wide, as on the platforms the tools are built for) and
    [int64] arithmetic wraps around. *)
Definition wrap64 (z : Z) : Z := (z + 2 ^ 63) mod 2 ^ 64 - 2 ^ 63.

(** [time.Second], in nanoseconds *)
Definition Second : Z := 1000000000.

(** The events of the retry loop: those that are not adapter calls. *)
Definition is_control (e : Event) : bool :=
  match e with EvFetch _ _ _ => false | _ => true end.

Definition control (t : list Event) : list Event := filter is_control t.

(** The results of the [Refresh] calls of a trace, in order. *)
Fixpoint attempts (t : list Event) : list (option error) :=
  match t with
  | [] => []
  | EvRefresh err :: t' => err :: attempts t'
  | _ :: t' => attempts t'
  end.

(** The durations of the [time.Sleep] calls of a trace, in order. *)
Fixpoint sleeps (t : list Event) : list Z :=
  match t with
  | [] => []
  | EvSleep d :: t' => d :: sleeps t'
  | _ :: t' => sleeps t'
  end.

(** The retry loop on attempts that fail with [errs], from [wait]. *)
Fixpoint schedule (errs : list error) (wait : Z) : list Event :=
  match errs with
  | [] => []
  | e :: errs' =>
      EvRefresh (Some e) :: EvSleep (wrap64 (wrap64 (wait * 2) * Second))
        :: schedule errs' (wrap64 (wait * 2))
  end.

(** A failed attempt and a sleep, any number of times, then at most one
    successful attempt. *)
Fixpoint backoff_shape (t : list Event) : bool :=
  match t with
  | [] => true
  | EvRefresh (Some _) :: EvSleep _ :: t' => backoff_shape t'
  | [EvRefresh None] => true
  | _ => false
  end.

(** Every sleep is followed by a later attempt. *)
Fixpoint sleeps_between_attempts (t : list Event) : bool :=
  match t with
  | [] => true
  | EvSleep _ :: t' =>
      match attempts t' with [] => false | _ => sleeps_between_attempts t' end
  | _ :: t' => sleeps_between_attempts t'
  end.

Section Refresh.

Context `{Env}.

(** The objects a method works on: the receiver [c], the world, the
    target [output] points to, the [RefreshState] that [Refresh]
    allocates, and the events so far. *)
Record State := mkState {
  self : ConfigValues;
  world : World;
  output : Output;
  refresh_state : RefreshState;
  trace : list Event
}.

Definition set_self (st : State) (c : ConfigValues) : State :=
  mkState c (world st) (output st) (refresh_state st) (trace st).

Definition set_world (st : State) (w : World) : State :=
  mkState (self st) w (output st) (refresh_state st) (trace st).

Definition set_output (st : State) (o : Output) : State :=
  mkState (self st) (world st) o (refresh_state st) (trace st).

Definition set_refresh_state (st : State) (rs : RefreshState) : State :=
  mkState (self st) (world st) (output st) rs (trace st).

Definition emit (e : Event) (st : State) : State :=
  mkState (self st) (world st) (output st) (refresh_state st)
    (trace st ++ [e]).

(** A Go function that returns [(value, error)] and works on the state. *)
Definition M (A : Type) : Type := State -> State * (error + A).

Definition ret {A} (a : A) : M A := fun st => (st, inr a).

(** [x, err := m; if err != nil { return nil, err }; k x] *)
Definition bind {A B} (m : M A) (k : A -> M B) : M B :=
  fun st =>
    match m st with
    | (st', inl err) => (st', inl err)
    | (st', inr a) => k a st'
    end.

Notation "'let!' x ':=' m 'in' k" := (bind m (fun x => k))
  (at level 10, x pattern, m at level 100, k at level 200).

Definition error_of {A} (r : error + A) : option error :=
  match r with inl err => Some err | inr _ => None end.

(** A provider adapter, called on behalf of a [Source]. *)
Definition fetch {A} (secretType identifier : string)
    (call : World -> World * (error + A)) : M A :=
  fun st =>
    let (w, r) := call (world st) in
    (emit (EvFetch secretType identifier (error_of r)) (set_world st w), r).

Definition getParametersByPath (path : string)
  : World -> World * (error + list (string * string)) :=
  fun w =>
    match ssm_GetParametersByPath path w with
    | (w', inl err) => (w', inl err)
    | (w', inr parameters) =>
        (w', inr (fold_left
                    (fun result parameter =>
                       let parts := strings.Split (fst parameter) "/" in
                       let key := last parts "" in
                       SM.set result key (snd parameter))
                    parameters []))
    end.

Definition ssmGetParameter (name : string)
  : World -> World * (error + string) :=
  ssm_GetParameter name.

Definition secretsManagerGetSecretValue (secretName prefix : string)
  : World -> World * (error + list (string * string)) :=
  fun w =>
    match secretsmanager_GetSecretValue secretName w with
    | (w', inl err) => (w', inl err)
    | (w', inr (SecretString, SecretBinary)) =>
        let content :=
          match SecretString with
          | Some s => inr s
          | None => base64_Decode SecretBinary
          end in
        match content with
        | inl err => (w', inl err)
        | inr content => (w', json_Unmarshal_strings content)
        end
    end.

(** [if state.SSMClient == nil { state.SSMClient = ssm.New(...) }] *)
Definition new_SSMClient : M unit :=
  fun st =>
    let rs := refresh_state st in
    if SSMClient rs then (st, inr tt)
    else (set_refresh_state st
            (mkRefreshState (STSClient rs) (SecretsManagerClient rs)
               (KMSClient rs) true), inr tt).

Definition new_SecretsManagerClient : M unit :=
  fun st =>
    let rs := refresh_state st in
    if SecretsManagerClient rs then (st, inr tt)
    else (set_refresh_state st
            (mkRefreshState (STSClient rs) true (KMSClient rs)
               (SSMClient rs)), inr tt).

Definition new_KMSClient : M unit :=
  fun st =>
    let rs := refresh_state st in
    if KMSClient rs then (st, inr tt)
    else (set_refresh_state st
            (mkRefreshState (STSClient rs) (SecretsManagerClient rs) true
               (SSMClient rs)), inr tt).

(** The [case Source] branch of [RefreshMap] for the entry under [key]. *)
Definition RefreshMap_source (key : string) (source : Source) (dst : Map)
  : M Map :=
  if String.eqb (Type_ source) "FILE" then
    let! bytes :=
      fetch "FILE" (Identifier source)
        (ioutil_ReadFile (Identifier source)) in
    ret (M.set dst (Name source) (VString bytes))
  else if String.eqb (Type_ source) "SSM" then
    let! _ := new_SSMClient in
    if strings.HasSuffix (Identifier source) "/*" then
      let path :=
        strings.take (String.length (Identifier source) - 2)
          (Identifier source) in
      let! values :=
        fetch "SSM" (Identifier source) (getParametersByPath path) in
      ret (M.set dst key (VStringMap values))
    else
      let! value :=
        fetch "SSM" (Identifier source)
          (ssmGetParameter (Identifier source)) in
      ret (M.set dst (Name source) (VString value))
  else if String.eqb (Type_ source) "SECRETS_MANAGER" then
    let! _ := new_SecretsManagerClient in
    let! values :=
      fetch "SECRETS_MANAGER" (Identifier source)
        (secretsManagerGetSecretValue (Identifier source) (Name source)) in
    ret (M.set dst key (VStringMap values))
  else if String.eqb (Type_ source) "KMS" then
    let! _ := new_KMSClient in
    let! value :=
      fetch "KMS" (Identifier source)
        (DecryptWithKMS (Identifier source)) in
    ret (M.set dst (Name source) (VString value))
  else ret dst.

(** [for key, value := range src] of [RefreshMap], with the [dst] built
    so far. *)
Fixpoint RefreshMap_range (src dst : Map) {struct src} : M Map :=
  match src with
  | MNil => ret dst
  | MCons key value rest =>
      match value with
      | VMap m =>
          let! res := RefreshMap_range m MNil in
          RefreshMap_range rest (M.set dst key (VMap res))
      | VSource source =>
          let! dst' := RefreshMap_source key source dst in
          RefreshMap_range rest dst'
      | _ => RefreshMap_range rest (M.set dst key value)
      end
  end.

Definition RefreshMap (src : Map) : M Map := RefreshMap_range src MNil.

Definition Refresh (st : State) : State * option error :=
  let st := set_refresh_state st (mkRefreshState false false false false) in
  match RefreshMap (Static (self st)) st with
  | (st, inl err) => (emit (EvRefresh (Some err)) st, Some err)
  | (st, inr env) =>
      match json_Marshal env with
      | inl err => (emit (EvRefresh (Some err)) st, Some err)
      | inr data =>
          let (o, err) := json_Unmarshal data (output st) in
          (emit (EvRefresh err) (set_output st o), err)
      end
  end.

Definition sleep (d : Z) (st : State) : State :=
  emit (EvSleep d) (set_world st (time_Sleep d (world st))).

(** The loop of [RefreshWithRetries] with [n] iterations to go.  The
    bound [c.MaxRetries] is not written in the loop, so the number of
    iterations is fixed on entry. *)
Fixpoint RefreshWithRetries_loop (n : nat) (wait : Z) (st : State)
  : State * option error :=
  match n with
  | O => (st, Some "Failed to refresh config")
  | S n' =>
      match Refresh st with
      | (st, None) => (st, None)
      | (st, Some _) =>
          let wait := wrap64 (wait * 2) in
          let st := sleep (wrap64 (wait * Second)) st in
          RefreshWithRetries_loop n' wait st
      end
  end.

Definition RefreshWithRetries (st : State) : State * option error :=
  RefreshWithRetries_loop (Z.to_nat (MaxRetries (self st))) 2 st.

Definition Clear (st : State) : State :=
  let c := self st in
  set_self st
    {| Sources := []; Static := MNil; MaxRetries := MaxRetries c;
       KeyPrefixes := KeyPrefixes c; ValuePrefixes := ValuePrefixes c |}.

Definition SetFromMap (m : Map) (st : State) : State * option error :=
  let c := self st in
  match GenerateFromMap c m with
  | inl err => (st, Some err)
  | inr res =>
      (set_self st
         {| Sources := Sources c; Static := res;
            MaxRetries := MaxRetries c; KeyPrefixes := KeyPrefixes c;
            ValuePrefixes := ValuePrefixes c |}, None)
  end.

Definition LoadJSON (filename : string) : World -> World * (error + Map) :=
  fun w =>
    match ioutil_ReadFile filename w with
    | (w', inl err) => (w', inl err)
    | (w', inr bytes) => (w', json_Unmarshal_object bytes)
    end.

Definition SetFromJSON (filename : string) (st : State)
  : State * option error :=
  match LoadJSON filename (world st) with
  | (w, inl err) => (set_world st w, Some err)
  | (w, inr value) => SetFromMap value (set_world st w)
  end.

Definition IsRefreshable (c : ConfigValues) : bool :=
  (0 <? length (Sources c))%nat.

(** The exported operations that work on a [ConfigValues]. *)
Inductive Op :=
| OpClear
| OpSetFromJSON (filename : string)
| OpSetFromMap (m : Map)
| OpRefresh
| OpRefreshWithRetries.

Definition exec (st : State) (op : Op) : State :=
  match op with
  | OpClear => Clear st
  | OpSetFromJSON filename => fst (SetFromJSON filename st)
  | OpSetFromMap m => fst (SetFromMap m st)
  | OpRefresh => fst (Refresh st)
  | OpRefreshWithRetries => fst (RefreshWithRetries st)
  end.

Definition run (ops : list Op) (st : State) : State :=
  fold_left exec ops st.

(** A fresh [NewConfigValues()] in a given world. *)
Definition init (w : World) (o : Output) : State :=
  mkState NewConfigValues w o (mkRefreshState false false false false) [].

(** Resolving a configuration: [GenerateFromMap], then [RefreshMap] on
    what it returns. *)
Definition resolve (c : ConfigValues) (src : Map) : M Map :=
  fun st =>
    match GenerateFromMap c src with
    | inl err => (st, inl err)
    | inr m => RefreshMap m st
    end.

(** An adapter that returned without an error. *)
Definition ok_fetch (e : Event) : bool :=
  match e with EvFetch _ _ None => true | _ => false end.

(** The events of a [RefreshMap] that returned [err]: adapter calls
    without an error, followed, when [err] is not nil, by the call that
    returned it. *)
Definition fetch_trace (delta : list Event) (err : option error) : Prop :=
  match err with
  | None => forallb ok_fetch delta = true
  | Some e =>
      exists delta' secretType identifier,
        delta = (delta' ++ [EvFetch secretType identifier (Some e)])%list
        /\ forallb ok_fetch delta' = true
  end.

(** The events added between two states. *)
Definition new_events (st st' : State) : list Event :=
  skipn (length (trace st)) (trace st').

(** A computation that leaves the receiver and the output target alone
    and whose events are those of [fetch_trace]. *)
Definition sound {A} (m : M A) : Prop :=
  forall st,
    self (fst (m st)) = self st
    /\ output (fst (m st)) = output st
    /\ exists delta,
        trace (fst (m st)) = (trace st ++ delta)%list
        /\ fetch_trace delta (error_of (snd (m st))).

End Refresh.

(** Whether [s] starts with one of the prefixes of a table. *)
Definition has_prefix_in (table : list (string * string)) (s : string)
  : bool :=
  existsb (fun entry => strings.HasPrefix s (snd entry)) table.

(** No string leaf, at any level of nesting, has a key that starts with a
    key prefix or a value that starts with a value prefix. *)
Fixpoint no_provider_prefix (c : ConfigValues) (m : Map) : bool :=
  match m with
  | MNil => true
  | MCons key value rest =>
      match value with
      | VString s =>
          negb (has_prefix_in (KeyPrefixes c) key)
          && negb (has_prefix_in (ValuePrefixes c) s)
      | VMap m' => no_provider_prefix c m'
      | _ => true
      end
      && no_provider_prefix c rest
  end.

(** The prefixes of a table exclude each other when no string starts with
    two of them. *)
Definition exclusive (table : list (string * string)) : Prop :=
  forall s e1 e2,
    In e1 table -> In e2 table ->
    strings.HasPrefix s (snd e1) = true ->
    strings.HasPrefix s (snd e2) = true ->
    e1 = e2.

(** The key under which the loop body of [GenerateFromMap] stores the
    entry [(key, value)]: the stripped name when [value] is a string and
    [key] carries a key prefix, [key] itself otherwise. *)
Definition written_key (c : ConfigValues) (key : string) (value : Value)
  : string :=
  match value with
  | VString _ =>
      match find (fun e => strings.HasPrefix key (snd e)) (KeyPrefixes c) with
      | Some e =>
          let key' := strings.drop (String.length (snd e)) key in
          if strings.HasPrefix key' "_" then "" else key'
      | None => key
      end
  | _ => key
  end.

Fixpoint entries (m : Map) : list (string * Value) :=
  match m with
  | MNil => []
  | MCons key value rest => (key, value) :: entries rest
  end.

(** Processing the string leaf [(key, value)] is the assignment
    [dst[okey] = oval]; the binding is in the returned map unless an entry
    visited later writes [okey] again. *)
Definition records (c : ConfigValues) (key value okey : string)
    (oval : Value) : Prop :=
  (forall rest dst,
      GenerateFromMap_range c (MCons key (VString value) rest) dst
      = GenerateFromMap_range c rest (M.set dst okey oval))
  /\ (forall pre post,
        (forall k v, In (k, v) (entries post) -> written_key c k v <> okey) ->
        exists out,
          GenerateFromMap c (M.app pre (MCons key (VString value) post))
          = inr out
          /\ M.get out okey = Some oval).

Definition with_ValuePrefixes (c : ConfigValues)
    (table : list (string * string)) : ConfigValues :=
  {| Sources := Sources c; Static := Static c; MaxRetries := MaxRetries c;
     KeyPrefixes := KeyPrefixes c; ValuePrefixes := table |}.

(** C7 as the specification words it: the [k]-th sleep takes [4 * 2^k]
    seconds, and every sleep is followed by another attempt. *)
Definition sleeps_only_between_attempts `{Env} (st : State) : Prop :=
  let delta := new_events st (fst (RefreshWithRetries st)) in
  (forall k, (k < length (sleeps delta))%nat ->
             nth k (sleeps delta) 0%Z = (4 * 2 ^ Z.of_nat k * Second)%Z)
  /\ sleeps_between_attempts (control delta) = true.

(** ** A simulated world

    A world to run the definitions in: it counts the calls made to it.  It
    has one file, SSM throttles the first two calls of a process, and
    Secrets Manager and KMS know nothing. *)
Module Sim.

Fixpoint render (m : Map) : string :=
match m with
| MNil => ""
| MCons key value rest =>
    key ++ "="
    ++ match value with
       | VString s => s
       | VMap m' => "{" ++ render m' ++ "}"
       | _ => "?"
       end
    ++ ";" ++ render rest
end.

Definition env : Env :=
{| World := nat;
   Output := string;
   ioutil_ReadFile := fun path w =>
     (S w, if String.eqb path "/etc/motd" then inr "hello"
           else inl "no such file or directory");
   ssm_GetParametersByPath := fun path w =>
     (S w, inr [ (path ++ "/user", "admin");
                 (path ++ "/password", "hunter2") ]);
   ssm_GetParameter := fun name w =>
     (S w, if (w <? 2)%nat then inl "ThrottlingException" else inr "42");
   secretsmanager_GetSecretValue := fun _ w =>
     (S w, inl "ResourceNotFoundException");
   DecryptWithKMS := fun _ w => (S w, inl "InvalidCiphertextException");
   base64_Decode := fun s => inr s;
   json_Unmarshal_strings := fun _ => inr [];
   json_Unmarshal_object := fun _ => inr MNil;
   json_Marshal := fun m => inr (render m);
   json_Unmarshal := fun data _ => (data, None);
   time_Sleep := fun _ w => w |}.

(** [NewConfigValues()] after [SetFromMap(m)], in a world without calls
  yet. *)
Definition configured (m : Map) : @State env :=
fst (@SetFromMap env m (@init env 0 "")).

(** A configuration without placeholders. *)
Definition plain : Map :=
MCons "region" (VString "eu-west-1")
  (MCons "db" (VMap (MCons "port" (VNumber 5432)
                       (MCons "host" (VString "localhost") MNil)))
     (MCons "debug" (VBool false) MNil)).

(** A file that does not exist. *)
Definition missing_file : Map :=
MCons "FILE_motd" (VString "/etc/issue") MNil.

(** A parameter that SSM returns at the third call. *)
Definition throttled : Map :=
MCons "token" (VString "ssm:///app/token") MNil.

End Sim.

(** No [Source] among the values that [RefreshMap] visits. *)
Fixpoint no_source (m : Map) : bool :=
  match m with
  | MNil => true
  | MCons key value rest =>
      match value with
      | VSource _ => false
      | VMap m' => no_source m'
      | _ => true
      end
      && no_source rest
  end.

(** No occurrence of the byte [sep] in [s]. *)
Fixpoint no_sep (sep : ascii) (s : string) : bool :=
  match s with
  | EmptyString => true
  | String a s' => negb (Ascii.eqb a sep) && no_sep sep s'
  end.

(** [parts[len(parts)-1]] for [parts := strings.Split(name, "/")] *)
Definition last_segment (name : string) : string :=
  last (strings.Split name "/") "".

(** ** What an entry of [GenerateFromMap] writes *)

(** The value that the loop body of [GenerateFromMap] stores for the entry
    [(key, value)], under [written_key c key value]. *)
Definition written_value (c : ConfigValues) (key : string) (value : Value)
  : Value :=
  match value with
  | VString s =>
      match find (fun e => strings.HasPrefix key (snd e)) (KeyPrefixes c) with
      | Some e =>
          let key' := strings.drop (String.length (snd e)) key in
          let name := if strings.HasPrefix key' "_" then "" else key' in
          VSource (mkSource (fst e) name s)
      | None =>
          match find (fun e => strings.HasPrefix s (snd e))
                  (ValuePrefixes c) with
          | Some e =>
              VSource (mkSource (fst e) key
                         (strings.drop (String.length (snd e)) s))
          | None => VString s
          end
      end
  | VMap m =>
      match GenerateFromMap c m with
      | inr val => VMap val
      | inl _ => VMap MNil
      end
  | _ => value
  end.

(** The entries that write the key [k]. *)
Definition writes (c : ConfigValues) (k : string) (e : string * Value)
  : bool :=
  String.eqb (written_key c (fst e) (snd e)) k.

(** The entry [(key, value)] is one that [GenerateFromMap] keeps as it is:
    a string without provider prefixes, a nested map of such entries, or a
    value that is neither. *)
Definition kept_as_is (c : ConfigValues) (key : string) (value : Value)
  : bool :=
  match value with
  | VString s =>
      negb (has_prefix_in (KeyPrefixes c) key)
      && negb (has_prefix_in (ValuePrefixes c) s)
  | VMap m => M.wf m && no_provider_prefix c m
  | _ => true
  end.

(** ** Sources and their names *)

Definition SourceTypes : list string :=
  ["KMS"; "SSM"; "SECRETS_MANAGER"; "FILE"].

(** A provider type that [RefreshMap] has a case for. *)
Definition known_type (t : string) : bool :=
  existsb (String.eqb t) SourceTypes.

(** The provider types of both prefix tables are known. *)
Definition known_types (c : ConfigValues) : bool :=
  forallb (fun e => known_type (fst e)) (KeyPrefixes c)
  && forallb (fun e => known_type (fst e)) (ValuePrefixes c).

(** Every [Source] that [RefreshMap] visits has a known type and is bound
    to the key that is its [Name]. *)
Fixpoint named (m : Map) : bool :=
  match m with
  | MNil => true
  | MCons key value rest =>
      match value with
      | VSource s => String.eqb (Name s) key && known_type (Type_ s)
      | VMap m' => named m'
      | _ => true
      end
      && named rest
  end.

(** The [Source] values of known type that [RefreshMap] visits, in the
    order in which it visits them. *)
Fixpoint sources_of (m : Map) : list Source :=
  match m with
  | MNil => []
  | MCons key value rest =>
      (match value with
       | VSource s => if known_type (Type_ s) then [s] else []
       | VMap m' => sources_of m'
       | _ => []
       end ++ sources_of rest)%list
  end.

(** The adapter call for [s] returned without an error. *)
Definition fetched (s : Source) : Event :=
  EvFetch (Type_ s) (Identifier s) None.

(** The events of a [RefreshMap] over the sources [srcs]: one call for
    each source in turn, up to the call that returned [err]. *)
Definition fetch_sequence (srcs : list Source) (err : option error)
    (delta : list Event) : Prop :=
  match err with
  | None => delta = map fetched srcs
  | Some e =>
      exists pre s post,
        srcs = (pre ++ s :: post)%list
        /\ delta
           = (map fetched pre ++ [EvFetch (Type_ s) (Identifier s) (Some e)])%list
  end.

(** A computation whose events are the calls for [srcs], in turn. *)
Definition calls `{Env} {A} (m : M A) (srcs : list Source) : Prop :=
  forall st,
  exists delta,
    trace (fst (m st)) = (trace st ++ delta)%list
    /\ fetch_sequence srcs (error_of (snd (m st))) delta.

(** The time slept during a trace, in nanoseconds. *)
Definition time_slept (t : list Event) : Z :=
  fold_right Z.add 0%Z (sleeps t).

(** ** ConvertMap *)

(** [strings.ToUpper] on a string of ASCII bytes: the letters [a] to [z]
    become [A] to [Z]. *)
Definition upper_byte (a : ascii) : ascii :=
  let n := nat_of_ascii a in
  if ((97 <=? n) && (n <=? 122))%nat then ascii_of_nat (n - 32) else a.

Fixpoint ToUpper_ascii (s : string) : string :=
  match s with
  | EmptyString => EmptyString
  | String a s' => String (upper_byte a) (ToUpper_ascii s')
  end.

Section ConvertMap.

(** [strings.ToUpper] *)
Variable ToUpper : string -> string.

(** The key under which [ConvertMap] stores the value of [key]. *)
Definition ConvertMap_key (prefix key : string) : string :=
  if String.eqb prefix "" then ToUpper key
  else prefix ++ "_" ++ ToUpper key.

(** [for key, value := range source], with the [res] built so far. *)
Fixpoint ConvertMap_range (source res : list (string * string))
    (prefix : string) : list (string * string) :=
  match source with
  | [] => res
  | (key, value) :: source' =>
      let newKey :=
        if String.eqb prefix "" then ToUpper key
        else prefix ++ "_" ++ ToUpper key in
      ConvertMap_range source' (SM.set res newKey value) prefix
  end.

Definition ConvertMap (source : list (string * string)) (prefix : string)
  : list (string * string) :=
  ConvertMap_range source [] prefix.

End ConvertMap.

(** [strings.Join(parts, sep)] for a separator of one byte *)
Fixpoint strings_Join (parts : list string) (sep : ascii) : string :=
  match parts with
  | [] => ""
  | part :: parts' =>
      match parts' with
      | [] => part
      | _ => part ++ String sep (strings_Join parts' sep)
      end
  end.

(** ** aws-dump: reports and resources managed by terraform *)

Module AwsDump.

(** The keys of the [services] table of [main]. *)
Definition services : list string :=
  ["acm"; "cloudwatch"; "ec2"; "iam"; "kms"; "lambda"; "route53"; "s3"].

(** What [main] does with one [--report] argument, up to the lookup of
    the service: the service and the resource asked for, or the message
    it exits with. *)
Definition parse_report (name : string) : string + (string * string) :=
  let parts := strings.Split name ":" in
  if negb (length parts =? 2)%nat then
    inl ("Invalid report format " ++ name ++ ", should be service:resource")
  else
    let service := nth 0 parts "" in
    if existsb (String.eqb service) services then inr (service, nth 1 parts "")
    else inl ("Invalid service " ++ service).

Section Report.

(** The resources that the jobs return, and what [main] needs of them. *)
Variable Resource : Type.
Variable UniqueID : Resource -> string.
Variable with_ManagedBy : Resource -> list (string * string) -> Resource.

(** [for _, resource := range resources] of [main], with the [report]
    built so far; [managed] is what [backends.Load] returned. *)
Fixpoint report_range (managed : list (string * string))
    (onlyUnmanaged : bool) (resources report : list Resource)
  : list Resource :=
  match resources with
  | [] => report
  | resource :: resources' =>
      match SM.get managed (UniqueID resource) with
      | Some s3Path =>
          if onlyUnmanaged then
            report_range managed onlyUnmanaged resources' report
          else
            report_range managed onlyUnmanaged resources'
              (report
                 ++ [with_ManagedBy resource
                       [("type", "terraform"); ("state", s3Path)]])%list
      | None =>
          report_range managed onlyUnmanaged resources'
            (report ++ [resource])%list
      end
  end.

(** The report of [main]: [managed] is [None] without
    [--terraform-backends-config]. *)
Definition build_report (managed : option (list (string * string)))
    (onlyUnmanaged : bool) (resources : list Resource) : list Resource :=
  match managed with
  | Some managed => report_range managed onlyUnmanaged resources []
  | None => resources
  end.

End Report.

End AwsDump.

(** ** ecs-deploy *)

Module EcsDeploy.

(** What [main] reads of a deployment: [RunningCount], [DesiredCount]. *)
Record Deployment := mkDeployment {
  RunningCount : Z;
  DesiredCount : Z
}.

(** A service of a [DescribeServices] output: its [Deployments]. *)
Definition Service := list Deployment.

(** The ECS service and the clock.  [now] is the reading of the monotonic
    clock, in nanoseconds. *)
Class Ecs := {
  World : Type;
  ecs_UpdateService : string -> World -> World * option error;
  ecs_DescribeServices :
    list string -> World -> World * (error + list Service);
  now : World -> Z;
  time_Sleep : Z -> World -> World
}.

(** How [main] ends: it returns, [FatalOnError] or [Fatalln] exits the
    process, an index is out of range; [OutOfFuel] is not an end, it says
    that the loop was cut before it ended. *)
Inductive Outcome :=
| Done
| FatalError (err : error)
| FatalTimeout (pending : nat)
| Panic
| OutOfFuel.

(** What [main] does that can be seen from outside. *)
Inductive Event :=
| EvUpdateService (service : string) (err : option error)
| EvDescribeServices
| EvPrintWaiting (pending : nat)
| EvSleep (d : Z).

Section Images.

(** The fields of a container definition that [main] leaves alone. *)
Variable Rest : Type.




End Images.

Section Deploy.

Context `{Ecs}.

(** [for _, service := range *services] with [UpdateService]; a failure is
    reported on stderr and the loop goes on. *)
Fixpoint update_services (services : list string) (pending : nat)
    (w : World) (t : list Event) : World * list Event * nat :=
  match services with
  | [] => (w, t, pending)
  | service :: services' =>
      match ecs_UpdateService service w with
      | (w', Some err) =>
          update_services services' pending w'
            (t ++ [EvUpdateService service (Some err)])%list
      | (w', None) =>
          update_services services' (S pending) w'
            (t ++ [EvUpdateService service None])%list
      end
  end.

(** The services of a [DescribeServices] output whose first deployment
    does not run as many tasks as desired; [None] when a service has no
    deployment, where [Deployments[0]] is out of range. *)
Fixpoint count_pending (services : list Service) (pending : nat)
  : option nat :=
  match services with
  | [] => Some pending
  | service :: services' =>
      match service with
      | [] => None
      | deployment :: _ =>
          if negb (RunningCount deployment =? DesiredCount deployment)%Z
          then count_pending services' (S pending)
          else count_pending services' pending
      end
  end.

(** [for pending > 0], at most [fuel] times around. *)
Fixpoint wait (fuel : nat) (names : list string) (start timeout : Z)
    (pending : nat) (w : World) (t : list Event)
  : World * list Event * Outcome :=
  if (pending =? 0)%nat then (w, t, Done)
  else
    match fuel with
    | O => (w, t, OutOfFuel)
    | S fuel' =>
        match ecs_DescribeServices names w with
        | (w, inl err) =>
            (w, (t ++ [EvDescribeServices])%list, FatalError err)
        | (w, inr servicesResult) =>
            let t := (t ++ [EvDescribeServices])%list in
            let previousPending := pending in
            match count_pending servicesResult 0 with
            | None => (w, t, Panic)
            | Some pending =>
                if negb (pending =? 0)%nat then
                  if (timeout <=? now w - start)%Z then
                    (w, t, FatalTimeout pending)
                  else
                    let t :=
                      if negb (previousPending =? pending)%nat
                      then (t ++ [EvPrintWaiting pending])%list else t in
                    wait fuel' names start timeout pending
                      (time_Sleep Second w) (t ++ [EvSleep Second])%list
                else wait fuel' names start timeout pending w t
            end
        end
    end.

(** [main] from the first [UpdateService] on. *)
Definition deploy (fuel : nat) (services : list string) (timeout : Z)
    (w : World) : World * list Event * Outcome :=
  let '(w, t, pending) := update_services services 0 w [] in
  let start := now w in
  wait fuel services start timeout pending w t.

End Deploy.

End EcsDeploy.

(** The [UpdateService] calls of a trace: the service and what the call
    returned. *)
Fixpoint updates (t : list EcsDeploy.Event)
  : list (string * option error) :=
  match t with
  | [] => []
  | EcsDeploy.EvUpdateService service err :: t' =>
      (service, err) :: updates t'
  | _ :: t' => updates t'
  end.

(** The number of [DescribeServices] calls of a trace. *)
Fixpoint polls (t : list EcsDeploy.Event) : nat :=
  match t with
  | [] => 0
  | EcsDeploy.EvDescribeServices :: t' => S (polls t')
  | _ :: t' => polls t'
  end.

(** A cluster to run [ecs-deploy] against: the world is the clock and the
    number of [DescribeServices] calls so far.  The service [broken]
    cannot be updated, a call takes half a second, and the tasks of a
    deployment run from the third call on. *)
Definition sim_ecs : EcsDeploy.Ecs :=
  {| EcsDeploy.World := Z * nat;
     EcsDeploy.ecs_UpdateService := fun service w =>
       (w, if String.eqb service "broken" then Some "ServiceNotFoundException"
           else None);
     EcsDeploy.ecs_DescribeServices := fun names w =>
       ((fst w + 500000000, S (snd w))%Z,
        inr (map (fun _ =>
                    [EcsDeploy.mkDeployment
                       (if (snd w <? 2)%nat then 1 else 2) 2])
               names));
     EcsDeploy.now := fun w => fst w;
     EcsDeploy.time_Sleep := fun d w => ((fst w + d)%Z, snd w) |}.

(** ** Sessions *)

Module Session.

(** [aws.Config], as far as [NewConfig] fills it. *)
Record Config := mkConfig {
  Region : string
}.

(** [credentials.Value] *)
Record Value := mkValue {
  AccessKeyID : string;
  SecretAccessKey : string;
  SessionToken : string
}.

(** The flags that [Retrieve] reads. *)
Record SessionFlags := mkSessionFlags {
  flag_Region : string;
  MFASerialNumber : string;
  MFATokenCode : string
}.

(** How a function that can call [Fatalln] ends. *)
Inductive Exit (A : Type) :=
| Fatal (message : string)
| Return (a : A).

Arguments Fatal {A} message.
Arguments Return {A} a.

Section NewConfig.

(** [os.Getenv] and [strings.TrimSpace] *)
Variable os_Getenv : string -> string.
Variable strings_TrimSpace : string -> string.

(** [for _, key := range []string{...}] of [NewConfig]: the message of the
    [Fatalln] that a key runs into. *)
Fixpoint check_keys (keys : list string) : option string :=
  match keys with
  | [] => None
  | key :: keys' =>
      let value := os_Getenv key in
      if negb (String.eqb value "") then
        if negb (String.eqb (strings_TrimSpace value) value) then
          Some (key ++ " has trailing spaces, please check your config")
        else check_keys keys'
      else check_keys keys'
  end.

Definition NewConfig (region : string) : Exit Config :=
  let region :=
    if String.eqb region "" then os_Getenv "AWS_REGION" else region in
  let region := if String.eqb region "" then "eu-west-1" else region in
  match check_keys ["AWS_ACCESS_KEY_ID"; "AWS_SECRET_ACCESS_KEY"] with
  | Some message => Fatal message
  | None => Return (mkConfig region)
  end.

(** The terminal and STS. *)
Variable World : Type.
Variable stscreds_StdinTokenProvider : World -> World * (error + string).
Variable sts_GetSessionToken :
  Config -> string -> string -> World -> World * (error + option Value).

(** [(p *SessionTokenProvider) Retrieve()] *)
Definition Retrieve (flags : SessionFlags) (w : World)
  : World * Exit (Value * option error) :=
  let result := mkValue "" "" "" in
  let with_token (tokenCode : string) (w : World) :=
    match NewConfig (flag_Region flags) with
    | Fatal message => (w, Fatal message)
    | Return conf =>
        match sts_GetSessionToken conf (MFASerialNumber flags) tokenCode w
        with
        | (w, inl err) => (w, Return (result, Some err))
        | (w, inr None) =>
            (w, Return (result, Some "Could not get credentials"))
        | (w, inr (Some credentials)) => (w, Return (credentials, None))
        end
    end in
  if String.eqb (MFATokenCode flags) "" then
    match stscreds_StdinTokenProvider w with
    | (w, inl err) => (w, Return (result, None))
    | (w, inr stdinCode) => with_token stdinCode w
    end
  else with_token (MFATokenCode flags) w.

End NewConfig.

End Session.

(** ** aws-dump: KMS keys *)

Module KmsDump.

(** [kms.KeyListEntry] and the fields of [kms.KeyMetadata] that
    [KMSListKeys] reads. *)
Record KeyListEntry := mkKeyListEntry {
  KeyArn : string;
  KeyId : string
}.

Record KeyMetadata := mkKeyMetadata {
  KeyManager : string;
  KeyState : string;
  Description : string;
  KeyUsage : string
}.

Definition KeyManagerTypeAws : string := "AWS".
Definition KeyStatePendingDeletion : string := "PendingDeletion".

Section ListKeys.

(** The resources of aws-dump, with their constructor from an ARN and the
    assignment of their [Metadata]. *)
Variable Resource : Type.
Variable NewResource : string -> error + Resource.
Variable with_Metadata : Resource -> list (string * string) -> Resource.

(** [DescribeKey] on the account, for a key id. *)
Variable kms_DescribeKey : string -> error + KeyMetadata.

Record FetchResult := mkFetchResult {
  Resources : list Resource;
  Error : option error
}.

(** [for _, key := range page.Keys] of the function given to
    [ListKeysPages]: the result so far, and what the function returns. *)
Fixpoint ListKeys_page (keys : list KeyListEntry) (result : FetchResult)
  : FetchResult * bool :=
  match keys with
  | [] => (result, true)
  | key :: keys' =>
      match NewResource (KeyArn key) with
      | inl err => (mkFetchResult (Resources result) (Some err), false)
      | inr resource =>
          match kms_DescribeKey (KeyId key) with
          | inl err => (mkFetchResult (Resources result) (Some err), false)
          | inr metadata =>
              if String.eqb (KeyManager metadata) KeyManagerTypeAws then
                ListKeys_page keys' result
              else if String.eqb (KeyState metadata) KeyStatePendingDeletion
              then ListKeys_page keys' result
              else
                let resource :=
                  with_Metadata resource
                    [ ("Description", Description metadata);
                      ("KeyState", KeyState metadata);
                      ("KeyUsage", KeyUsage metadata) ] in
                ListKeys_page keys'
                  (mkFetchResult (Resources result ++ [resource])%list
                     (Error result))
          end
      end
  end.

(** The paginator of the SDK: it calls [fn] on each page that the service
    returns, until [fn] returns false or a request fails, and it returns
    the error of the request that failed, nil otherwise.  [pages] are the
    pages returned before the request that fails with [err], or all of
    them. *)
Fixpoint ListKeysPages (pages : list (list KeyListEntry))
    (err : option error)
    (fn : list KeyListEntry -> FetchResult -> FetchResult * bool)
    (result : FetchResult) : FetchResult * option error :=
  match pages with
  | [] => (result, err)
  | page :: pages' =>
      let (result, continue) := fn page result in
      if continue then ListKeysPages pages' err fn result
      else (result, None)
  end.

(** [result.Error = client.ListKeysPages(...)]: the assignment is made
    when the call has returned, after those made by the function. *)
Definition KMSListKeys (pages : list (list KeyListEntry))
    (err : option error) : FetchResult :=
  let (result, returned) :=
    ListKeysPages pages err ListKeys_page (mkFetchResult [] None) in
  mkFetchResult (Resources result) returned.

(** A key for which both [NewResource] and [DescribeKey] succeed. *)
Definition described (key : KeyListEntry) : bool :=
  match NewResource (KeyArn key), kms_DescribeKey (KeyId key) with
  | inr _, inr _ => true
  | _, _ => false
  end.

(** The keys up to the first one that is not [described]. *)
Fixpoint described_prefix (keys : list KeyListEntry) : list KeyListEntry :=
  match keys with
  | [] => []
  | key :: keys' =>
      if described key then key :: described_prefix keys' else []
  end.

(** The resource reported for a key: none for a key managed by AWS or
    pending deletion. *)
Definition reported (key : KeyListEntry) : list Resource :=
  match NewResource (KeyArn key), kms_DescribeKey (KeyId key) with
  | inr resource, inr metadata =>
      if String.eqb (KeyManager metadata) KeyManagerTypeAws
         || String.eqb (KeyState metadata) KeyStatePendingDeletion
      then []
      else [with_Metadata resource
              [ ("Description", Description metadata);
                ("KeyState", KeyState metadata);
                ("KeyUsage", KeyUsage metadata) ]]
  | _, _ => []
  end.

End ListKeys.

End KmsDump.

(** * Theorems *)

(** ** Facts about maps *)

Lemma eqb_sym_false (a b : string) :
  String.eqb a b = false -> String.eqb b a = false.
Proof. rewrite String.eqb_sym. exact (fun H => H). Qed.

Lemma get_set_same (m : Map) (k : string) (v : Value) :
  M.get (M.set m k v) k = Some v.
Proof.
  induction m as [|key value rest IH]; simpl.
  - now rewrite String.eqb_refl.
  - destruct (String.eqb key k) eqn:E; simpl.
    + now rewrite String.eqb_refl.
    + now rewrite E.
Qed.

Lemma get_set_other (m : Map) (k k' : string) (v : Value) :
  k <> k' -> M.get (M.set m k v) k' = M.get m k'.
Proof.
  intros Hne. induction m as [|key value rest IH]; simpl.
  - destruct (String.eqb k k') eqn:E; [|reflexivity].
    apply String.eqb_eq in E. contradiction.
  - destruct (String.eqb key k) eqn:E; simpl.
    + apply String.eqb_eq in E. subst key.
      destruct (String.eqb k k') eqn:E'; [|reflexivity].
      apply String.eqb_eq in E'. contradiction.
    + now rewrite IH.
Qed.

Lemma Map_app_cons_assoc (m1 m2 : Map) (k : string) (v : Value) :
  M.app (M.app m1 (MCons k v MNil)) m2 = M.app m1 (MCons k v m2).
Proof. induction m1 as [|key value rest IH]; simpl; congruence. Qed.

Lemma Map_app_nil_r (m : Map) : M.app m MNil = m.
Proof. induction m as [|key value rest IH]; simpl; congruence. Qed.

Lemma set_fresh (m : Map) (k : string) (v : Value) :
  M.mem k (M.keys m) = false -> M.set m k v = M.app m (MCons k v MNil).
Proof.
  induction m as [|key value rest IH]; simpl; [reflexivity|].
  intros H. apply orb_false_iff in H as [E H].
  rewrite E. now rewrite IH.
Qed.

Lemma mem_keys_app (k : string) (m1 m2 : Map) :
  M.mem k (M.keys (M.app m1 m2))
  = M.mem k (M.keys m1) || M.mem k (M.keys m2).
Proof.
  induction m1 as [|key value rest IH]; simpl; [reflexivity|].
  now rewrite IH, orb_assoc.
Qed.

Lemma wf_app_cons (dst : Map) (k : string) (v : Value) (rest : Map) :
  M.wf (M.app dst (MCons k v rest)) = true ->
  M.mem k (M.keys dst) = false
  /\ match v with VMap m => M.wf m | _ => true end = true.
Proof.
  induction dst as [|key value d IH]; simpl.
  - intros H. apply andb_true_iff in H as [H _].
    apply andb_true_iff in H as [_ H]. now split.
  - intros H. apply andb_true_iff in H as [H Hd].
    apply andb_true_iff in H as [Hk _].
    destruct (IH Hd) as [Hm Hv]. split; [|exact Hv].
    rewrite Hm, orb_false_r.
    apply negb_true_iff in Hk. rewrite mem_keys_app in Hk.
    apply orb_false_iff in Hk as [_ Hk]. simpl in Hk.
    apply orb_false_iff in Hk as [Hk _].
    now apply eqb_sym_false.
Qed.

(** ** Placeholder recognition *)

Lemma range_KeyPrefixes_none table key value dst :
  has_prefix_in table key = false ->
  range_KeyPrefixes table key value dst = (dst, false).
Proof.
  induction table as [|[secretType prefix] table IH]; simpl; [reflexivity|].
  intros H. apply orb_false_iff in H as [H1 H2].
  rewrite H1. now apply IH.
Qed.

Lemma range_ValuePrefixes_none table key value dst :
  has_prefix_in table value = false ->
  range_ValuePrefixes table key value dst = (dst, false).
Proof.
  induction table as [|[secretType prefix] table IH]; simpl; [reflexivity|].
  intros H. apply orb_false_iff in H as [H1 H2].
  rewrite H1. now apply IH.
Qed.

Lemma GenerateFromMap_string_literal c key value dst :
  has_prefix_in (KeyPrefixes c) key = false ->
  has_prefix_in (ValuePrefixes c) value = false ->
  GenerateFromMap_string c key value dst = M.set dst key (VString value).
Proof.
  intros Hk Hv. unfold GenerateFromMap_string.
  rewrite (range_KeyPrefixes_none _ _ _ _ Hk). simpl.
  now rewrite (range_ValuePrefixes_none _ _ _ _ Hv).
Qed.

Lemma GenerateFromMap_range_identity c src :
  forall dst,
    M.wf (M.app dst src) = true ->
    no_provider_prefix c src = true ->
    GenerateFromMap_range c src dst = inr (M.app dst src).
Proof.
  induction src using Map_mut with
    (P := fun v => match v with
                   | VMap m => forall dst,
                       M.wf (M.app dst m) = true ->
                       no_provider_prefix c m = true ->
                       GenerateFromMap_range c m dst = inr (M.app dst m)
                   | _ => True
                   end); try exact I; try assumption.
  - intros dst _ _. simpl. now rewrite Map_app_nil_r.
  - intros dst Hwf Hclean.
    destruct (wf_app_cons _ _ _ _ Hwf) as [Hfresh Hv].
    simpl in Hclean. apply andb_true_iff in Hclean as [Hleaf Hrest].
    assert (Hnext : forall v', M.wf (M.app dst (MCons key v' src)) = true ->
              GenerateFromMap_range c src (M.set dst key v')
              = inr (M.app dst (MCons key v' src))).
    { intros v' Hwf'. rewrite (set_fresh _ _ _ Hfresh).
      rewrite IHsrc0; [now rewrite Map_app_cons_assoc| |exact Hrest].
      now rewrite Map_app_cons_assoc. }
    destruct value; simpl; try (apply Hnext; exact Hwf).
    + apply andb_true_iff in Hleaf as [Hk Hs].
      apply negb_true_iff in Hk, Hs.
      rewrite (GenerateFromMap_string_literal _ _ _ _ Hk Hs).
      apply Hnext; exact Hwf.
    + rewrite (IHsrc MNil Hv Hleaf). simpl.
      apply Hnext; exact Hwf.
Qed.

(** C3: on a map whose string leaves carry no key prefix and no value
    prefix, at any depth, [GenerateFromMap] returns its input and a nil
    error. *)
Theorem GenerateFromMap_identity (c : ConfigValues) (src : Map) :
  M.wf src = true ->
  no_provider_prefix c src = true ->
  GenerateFromMap c src = inr src.
Proof.
  intros Hwf Hclean. unfold GenerateFromMap.
  now rewrite (GenerateFromMap_range_identity c src MNil Hwf Hclean).
Qed.

Lemma prefix_cons (a : ascii) (p s : string) :
  String.prefix (String a p) s = true ->
  exists s', s = String a s' /\ String.prefix p s' = true.
Proof.
  destruct s as [|b s]; simpl; [discriminate|].
  destruct (ascii_dec a b); [subst; eauto | discriminate].
Qed.

Ltac prefix_inv :=
  repeat match goal with
         | H : String.prefix (String _ _) _ = true |- _ =>
             apply prefix_cons in H; destruct H as (? & ? & H)
         | H : String _ _ = String _ _ |- _ =>
             first [discriminate H | injection H as ? ?; subst]
         | H : ?s = String _ _ |- _ => is_var s; subst s
         end.

Ltac exclusive_cases :=
  let s := fresh "s" in
  let e1 := fresh "e" in let e2 := fresh "e" in
  let H1 := fresh "H" in let H2 := fresh "H" in
  let P1 := fresh "P" in let P2 := fresh "P" in
  intros s e1 e2 H1 H2 P1 P2; unfold strings.HasPrefix in *;
  simpl in H1, H2;
  repeat (destruct H1 as [H1|H1]; [subst e1|]); try contradiction;
  repeat (destruct H2 as [H2|H2]; [subst e2|]); try contradiction;
  try reflexivity; exfalso; cbn [snd] in *; prefix_inv.

Lemma KeyPrefixes_exclusive : exclusive (KeyPrefixes NewConfigValues).
Proof. exclusive_cases. Qed.

Lemma ValuePrefixes_exclusive : exclusive (ValuePrefixes NewConfigValues).
Proof. exclusive_cases. Qed.

Lemma exclusive_Permutation t1 t2 :
  Permutation t1 t2 -> exclusive t2 -> exclusive t1.
Proof.
  intros HP Hex s e1 e2 H1 H2. apply Hex; eapply Permutation_in; eauto.
Qed.

Lemma exclusive_tail e table : exclusive (e :: table) -> exclusive table.
Proof.
  intros Hex s e1 e2 H1 H2. apply Hex; now right.
Qed.

Lemma range_KeyPrefixes_match table key value dst secretType prefix :
  exclusive table ->
  In (secretType, prefix) table ->
  strings.HasPrefix key prefix = true ->
  range_KeyPrefixes table key value dst
  = (let key' := strings.drop (String.length prefix) key in
     let name := if strings.HasPrefix key' "_" then "" else key' in
     (M.set dst name (VSource (mkSource secretType name value)), true)).
Proof.
  induction table as [|[t p] table IH]; intros Hex Hin Hp; [destruct Hin|].
  simpl. destruct (strings.HasPrefix key p) eqn:E.
  - assert (Heq : (t, p) = (secretType, prefix)).
    { apply (Hex key); simpl; auto. }
    now inversion Heq.
  - destruct Hin as [Hin|Hin].
    + inversion Hin; subst. congruence.
    + apply IH; auto. eapply exclusive_tail; eauto.
Qed.

Lemma range_ValuePrefixes_match table key value dst secretType prefix :
  exclusive table ->
  In (secretType, prefix) table ->
  strings.HasPrefix value prefix = true ->
  range_ValuePrefixes table key value dst
  = (M.set dst key
       (VSource (mkSource secretType key
                   (strings.drop (String.length prefix) value))), true).
Proof.
  induction table as [|[t p] table IH]; intros Hex Hin Hp; [destruct Hin|].
  simpl. destruct (strings.HasPrefix value p) eqn:E.
  - assert (Heq : (t, p) = (secretType, prefix)).
    { apply (Hex value); simpl; auto. }
    now inversion Heq.
  - destruct Hin as [Hin|Hin].
    + inversion Hin; subst. congruence.
    + apply IH; auto. eapply exclusive_tail; eauto.
Qed.

Lemma range_KeyPrefixes_find table key value dst :
  range_KeyPrefixes table key value dst
  = match find (fun e => strings.HasPrefix key (snd e)) table with
    | Some e =>
        let key' := strings.drop (String.length (snd e)) key in
        let name := if strings.HasPrefix key' "_" then "" else key' in
        (M.set dst name (VSource (mkSource (fst e) name value)), true)
    | None => (dst, false)
    end.
Proof.
  induction table as [|[t p] table IH]; simpl; [reflexivity|].
  destruct (strings.HasPrefix key p); [reflexivity|exact IH].
Qed.

Lemma range_ValuePrefixes_find table key value dst :
  range_ValuePrefixes table key value dst
  = match find (fun e => strings.HasPrefix value (snd e)) table with
    | Some e =>
        (M.set dst key
           (VSource (mkSource (fst e) key
                       (strings.drop (String.length (snd e)) value))), true)
    | None => (dst, false)
    end.
Proof.
  induction table as [|[t p] table IH]; simpl; [reflexivity|].
  destruct (strings.HasPrefix value p); [reflexivity|exact IH].
Qed.

Lemma GenerateFromMap_string_frame c key value dst k0 :
  written_key c key (VString value) <> k0 ->
  M.get (GenerateFromMap_string c key value dst) k0 = M.get dst k0.
Proof.
  unfold written_key, GenerateFromMap_string.
  rewrite range_KeyPrefixes_find.
  destruct (find _ (KeyPrefixes c)) as [e|]; simpl.
  - intros Hne. now apply get_set_other.
  - intros Hne. rewrite range_ValuePrefixes_find.
    destruct (find _ (ValuePrefixes c)) as [e|]; simpl;
      now apply get_set_other.
Qed.

Lemma GenerateFromMap_range_frame c rest k0 :
  forall dst out,
    GenerateFromMap_range c rest dst = inr out ->
    (forall k v, In (k, v) (entries rest) -> written_key c k v <> k0) ->
    M.get out k0 = M.get dst k0.
Proof.
  induction rest as [|key value rest IH]; simpl; intros dst out Hrun Hfree.
  - now inversion Hrun.
  - assert (Hkey : written_key c key value <> k0) by (apply Hfree; now left).
    assert (Hrest : forall k v, In (k, v) (entries rest) ->
                                written_key c k v <> k0)
      by (intros k v Hin; apply Hfree; now right).
    destruct value;
      try (rewrite (IH _ _ Hrun Hrest); now apply get_set_other).
    + rewrite (IH _ _ Hrun Hrest).
      now apply GenerateFromMap_string_frame.
    + destruct (GenerateFromMap_range c m MNil) as [err|val];
        [discriminate|].
      rewrite (IH _ _ Hrun Hrest). now apply get_set_other.
Qed.

Lemma GenerateFromMap_range_total c src :
  forall dst, exists out, GenerateFromMap_range c src dst = inr out.
Proof.
  induction src using Map_mut with
    (P := fun v => match v with
                   | VMap m => forall dst, exists out,
                       GenerateFromMap_range c m dst = inr out
                   | _ => True
                   end); try exact I; try assumption.
  - intros dst. now exists dst.
  - intros dst. destruct value; simpl; try apply IHsrc0.
    destruct (IHsrc MNil) as [val Hval]. rewrite Hval. apply IHsrc0.
Qed.

Lemma GenerateFromMap_range_app c pre :
  forall post dst,
    GenerateFromMap_range c (M.app pre post) dst
    = match GenerateFromMap_range c pre dst with
      | inl err => inl err
      | inr dst' => GenerateFromMap_range c post dst'
      end.
Proof.
  induction pre as [|key value pre IH]; simpl; intros post dst;
    [reflexivity|].
  destruct value; try apply IH.
  destruct (GenerateFromMap_range c m MNil) as [err|val];
    [reflexivity|apply IH].
Qed.

Lemma records_intro c key value okey oval :
  (forall dst, GenerateFromMap_string c key value dst = M.set dst okey oval) ->
  records c key value okey oval.
Proof.
  intros Hstep. split.
  - intros rest dst. simpl. now rewrite Hstep.
  - intros pre post Hfree. unfold GenerateFromMap.
    rewrite GenerateFromMap_range_app.
    destruct (GenerateFromMap_range_total c pre MNil) as [d Hd].
    rewrite Hd. simpl. rewrite Hstep.
    destruct (GenerateFromMap_range_total c post (M.set d okey oval))
      as [out Hout].
    exists out. split; [exact Hout|].
    rewrite (GenerateFromMap_range_frame _ _ _ _ _ Hout Hfree).
    apply get_set_same.
Qed.

Lemma has_prefix_in_In table s e :
  In e table -> strings.HasPrefix s (snd e) = true ->
  has_prefix_in table s = true.
Proof.
  intros Hin Hp. apply existsb_exists. now exists e.
Qed.

Lemma GenerateFromMap_string_key c key value dst secretType prefix :
  exclusive (KeyPrefixes c) ->
  In (secretType, prefix) (KeyPrefixes c) ->
  strings.HasPrefix key prefix = true ->
  GenerateFromMap_string c key value dst
  = (let key' := strings.drop (String.length prefix) key in
     let name := if strings.HasPrefix key' "_" then "" else key' in
     M.set dst name (VSource (mkSource secretType name value))).
Proof.
  intros Hex Hin Hp. unfold GenerateFromMap_string.
  now rewrite (range_KeyPrefixes_match _ _ _ _ _ _ Hex Hin Hp).
Qed.

Lemma GenerateFromMap_string_value c key value dst secretType prefix :
  exclusive (ValuePrefixes c) ->
  has_prefix_in (KeyPrefixes c) key = false ->
  In (secretType, prefix) (ValuePrefixes c) ->
  strings.HasPrefix value prefix = true ->
  GenerateFromMap_string c key value dst
  = M.set dst key
      (VSource (mkSource secretType key
                  (strings.drop (String.length prefix) value))).
Proof.
  intros Hex Hk Hin Hp. unfold GenerateFromMap_string.
  rewrite (range_KeyPrefixes_none _ _ _ _ Hk). simpl.
  now rewrite (range_ValuePrefixes_match _ _ _ _ _ _ Hex Hin Hp).
Qed.

(** C4: when the key of a string leaf carries a key prefix and its value a
    value prefix, the leaf is recorded as the [Source] of the key prefix,
    with the whole value as identifier; the table of value prefixes is not
    consulted for that leaf. *)
Theorem key_prefix_precedence (c : ConfigValues) (key value : string)
    (ktype kprefix vtype vprefix : string) :
  Permutation (KeyPrefixes c) (KeyPrefixes NewConfigValues) ->
  In (ktype, kprefix) (KeyPrefixes c) ->
  strings.HasPrefix key kprefix = true ->
  In (vtype, vprefix) (ValuePrefixes c) ->
  strings.HasPrefix value vprefix = true ->
  let key' := strings.drop (String.length kprefix) key in
  let name := if strings.HasPrefix key' "_" then "" else key' in
  let source := VSource (mkSource ktype name value) in
  GenerateFromMap c (MCons key (VString value) MNil)
  = inr (MCons name source MNil)
  /\ (forall dst, GenerateFromMap_string c key value dst
                  = M.set dst name source)
  /\ (forall table dst,
        GenerateFromMap_string (with_ValuePrefixes c table) key value dst
        = GenerateFromMap_string c key value dst).
Proof.
  intros HP Hkin Hkp Hvin Hvp key' name source.
  assert (Hex : exclusive (KeyPrefixes c))
    by (eapply exclusive_Permutation; [exact HP|apply KeyPrefixes_exclusive]).
  assert (Hstep : forall dst, GenerateFromMap_string c key value dst
                              = M.set dst name source)
    by (intros dst; now apply GenerateFromMap_string_key).
  split; [|split].
  - unfold GenerateFromMap. simpl. now rewrite Hstep.
  - exact Hstep.
  - intros table dst. rewrite Hstep.
    now apply (GenerateFromMap_string_key (with_ValuePrefixes c table)).
Qed.

(** C5: what [GenerateFromMap] does with a string leaf [(key, value)],
    whatever the order in which the two prefix tables are visited.  With a
    key prefix, it assigns the [Source] of that provider, named by the key
    without its prefix (or by the empty string when what remains starts
    with an underscore) and identified by the value, under that name.
    Otherwise, with a value prefix, it assigns under [key] the [Source] of
    that provider, named [key] and identified by the value without its
    prefix.  Otherwise it assigns the literal value under [key]. *)
Theorem GenerateFromMap_leaf (c : ConfigValues) (key value : string) :
  Permutation (KeyPrefixes c) (KeyPrefixes NewConfigValues) ->
  Permutation (ValuePrefixes c) (ValuePrefixes NewConfigValues) ->
  (forall secretType prefix,
      In (secretType, prefix) (KeyPrefixes c) ->
      strings.HasPrefix key prefix = true ->
      let key' := strings.drop (String.length prefix) key in
      let name := if strings.HasPrefix key' "_" then "" else key' in
      records c key value name (VSource (mkSource secretType name value)))
  /\ (has_prefix_in (KeyPrefixes c) key = false ->
      forall secretType prefix,
        In (secretType, prefix) (ValuePrefixes c) ->
        strings.HasPrefix value prefix = true ->
        records c key value key
          (VSource (mkSource secretType key
                      (strings.drop (String.length prefix) value))))
  /\ (has_prefix_in (KeyPrefixes c) key = false ->
      has_prefix_in (ValuePrefixes c) value = false ->
      records c key value key (VString value)).
Proof.
  intros HPk HPv.
  assert (Hexk : exclusive (KeyPrefixes c))
    by (eapply exclusive_Permutation; [exact HPk|apply KeyPrefixes_exclusive]).
  assert (Hexv : exclusive (ValuePrefixes c))
    by (eapply exclusive_Permutation;
        [exact HPv|apply ValuePrefixes_exclusive]).
  split; [|split].
  - intros secretType prefix Hin Hp key' name.
    apply records_intro. intros dst.
    now apply GenerateFromMap_string_key.
  - intros Hk secretType prefix Hin Hp.
    apply records_intro. intros dst.
    now apply GenerateFromMap_string_value.
  - intros Hk Hv. apply records_intro. intros dst.
    now apply GenerateFromMap_string_literal.
Qed.

(** ** Refresh *)

Section RefreshFacts.

Context `{Env}.

Local Open Scope list_scope.

Lemma sound_ret {A} (a : A) : sound (ret a).
Proof.
  intros st. simpl. repeat split. exists []. now rewrite app_nil_r.
Qed.

Lemma sound_bind {A B} (m : M A) (k : A -> M B) :
  sound m -> (forall a, sound (k a)) -> sound (bind m k).
Proof.
  intros Hm Hk st. unfold bind.
  destruct (Hm st) as (Hs & Ho & delta & Ht & Hf).
  destruct (m st) as [st1 [err|a]]; simpl in *.
  - repeat split; auto. now exists delta.
  - destruct (Hk a st1) as (Hs' & Ho' & delta' & Ht' & Hf').
    repeat split; try congruence.
    exists (delta ++ delta'). split.
    + now rewrite Ht', Ht, app_assoc.
    + destruct (error_of (snd (k a st1))) as [e|]; simpl in *.
      * destruct Hf' as (d0 & ty & id & -> & Hd0).
        exists (delta ++ d0), ty, id. split; [now rewrite app_assoc|].
        rewrite forallb_app. now rewrite Hf, Hd0.
      * rewrite forallb_app. now rewrite Hf, Hf'.
Qed.

Lemma sound_fetch {A} secretType identifier
    (call : World -> World * (error + A)) :
  sound (fetch secretType identifier call).
Proof.
  intros st. unfold fetch. destruct (call (world st)) as [w r]. simpl.
  repeat split. exists [EvFetch secretType identifier (error_of r)].
  split; [reflexivity|]. destruct r as [err|a]; simpl.
  - now exists [], secretType, identifier.
  - reflexivity.
Qed.

Lemma sound_client (m : M unit) :
  (forall st, self (fst (m st)) = self st
              /\ output (fst (m st)) = output st
              /\ trace (fst (m st)) = trace st
              /\ snd (m st) = inr tt) ->
  sound m.
Proof.
  intros Hm st. destruct (Hm st) as (Hs & Ho & Ht & Hr).
  split; [exact Hs|]. split; [exact Ho|].
  exists []. rewrite app_nil_r, Hr. now split.
Qed.

Lemma sound_new_SSMClient : sound new_SSMClient.
Proof.
  apply sound_client. intros st. unfold new_SSMClient.
  destruct (SSMClient (refresh_state st)); simpl; auto.
Qed.

Lemma sound_new_SecretsManagerClient : sound new_SecretsManagerClient.
Proof.
  apply sound_client. intros st. unfold new_SecretsManagerClient.
  destruct (SecretsManagerClient (refresh_state st)); simpl; auto.
Qed.

Lemma sound_new_KMSClient : sound new_KMSClient.
Proof.
  apply sound_client. intros st. unfold new_KMSClient.
  destruct (KMSClient (refresh_state st)); simpl; auto.
Qed.

Lemma sound_RefreshMap_source key source dst :
  sound (RefreshMap_source key source dst).
Proof.
  unfold RefreshMap_source.
  repeat match goal with
         | |- sound (if ?b then _ else _) => destruct b
         | |- sound (bind _ _) => apply sound_bind
         | |- forall _, _ => intro
         | |- sound (ret _) => apply sound_ret
         | |- sound (fetch _ _ _) => apply sound_fetch
         | |- sound new_SSMClient => apply sound_new_SSMClient
         | |- sound new_SecretsManagerClient =>
             apply sound_new_SecretsManagerClient
         | |- sound new_KMSClient => apply sound_new_KMSClient
         end.
Qed.

Lemma sound_RefreshMap_range src : forall dst, sound (RefreshMap_range src dst).
Proof.
  induction src using Map_mut with
    (P := fun v => match v with
                   | VMap m => forall dst, sound (RefreshMap_range m dst)
                   | _ => True
                   end); try exact I; try assumption.
  - intros dst. apply sound_ret.
  - intros dst. destruct value; simpl; try apply IHsrc0.
    + apply sound_bind; [apply IHsrc|]. intros res. apply IHsrc0.
    + apply sound_bind; [apply sound_RefreshMap_source|].
      intros dst'. apply IHsrc0.
Qed.

Lemma new_events_app st st' delta :
  trace st' = trace st ++ delta -> new_events st st' = delta.
Proof.
  intros Ht. unfold new_events. rewrite Ht.
  rewrite skipn_app, Nat.sub_diag, skipn_all. reflexivity.
Qed.

Lemma ok_fetch_no_error delta secretType identifier e :
  forallb ok_fetch delta = true ->
  ~ In (EvFetch secretType identifier (Some e)) delta.
Proof.
  intros Hok Hin. rewrite forallb_forall in Hok.
  specialize (Hok _ Hin). discriminate.
Qed.

Lemma fetch_trace_In delta err secretType identifier e :
  fetch_trace delta err ->
  In (EvFetch secretType identifier (Some e)) delta ->
  err = Some e.
Proof.
  intros Hf Hin. destruct err as [e'|]; simpl in Hf.
  - destruct Hf as (d0 & ty & id & -> & Hok).
    apply in_app_or in Hin as [Hin|[Hin|[]]].
    + now apply ok_fetch_no_error in Hin.
    + now inversion Hin.
  - now apply ok_fetch_no_error in Hin.
Qed.

(** What [Refresh] does: the events of its [RefreshMap], then its own
    return; the receiver untouched; the output target untouched when
    [RefreshMap] fails. *)
Lemma Refresh_spec (st : State) :
  let st0 :=
    set_refresh_state st (mkRefreshState false false false false) in
  let ferr := error_of (snd (RefreshMap (Static (self st)) st0)) in
  self (fst (Refresh st)) = self st
  /\ (forall e, ferr = Some e ->
                snd (Refresh st) = Some e
                /\ output (fst (Refresh st)) = output st)
  /\ (snd (Refresh st) = None -> ferr = None)
  /\ exists delta,
      trace (fst (Refresh st))
      = trace st ++ delta ++ [EvRefresh (snd (Refresh st))]
      /\ fetch_trace delta ferr.
Proof.
  intros st0 ferr. subst ferr. unfold Refresh. fold st0.
  change (Static (self (st0))) with (Static (self st)).
  destruct (sound_RefreshMap_range (Static (self st)) MNil st0)
    as (Hs & Ho & delta & Ht & Hf).
  unfold RefreshMap.
  destruct (RefreshMap_range (Static (self st)) MNil st0)
    as [st1 [err|env]]; simpl in *.
  - split; [exact Hs|]. split; [|split].
    + intros e He. inversion He; subst. now split.
    + discriminate.
    + exists delta. split; [|exact Hf]. now rewrite Ht, app_assoc.
  - destruct (json_Marshal env) as [err|data]; simpl.
    + split; [exact Hs|]. split; [discriminate|]. split; [reflexivity|].
      exists delta. split; [|exact Hf]. now rewrite Ht, app_assoc.
    + destruct (json_Unmarshal data (output st1)) as [o err]; simpl.
      split; [exact Hs|]. split; [discriminate|]. split; [reflexivity|].
      exists delta. split; [|exact Hf]. now rewrite Ht, app_assoc.
Qed.

(** C2: when a provider adapter called during a [Refresh] returns an
    error, [Refresh] returns that error and the output target is as it
    was; [RefreshMap] returns no map then. *)
Theorem Refresh_provider_error (st : State) :
  (forall secretType identifier e,
      In (EvFetch secretType identifier (Some e))
        (new_events st (fst (Refresh st))) ->
      snd (Refresh st) = Some e
      /\ output (fst (Refresh st)) = output st)
  /\ (forall e,
        snd (RefreshMap (Static (self st))
               (set_refresh_state st
                  (mkRefreshState false false false false))) = inl e ->
        snd (Refresh st) = Some e
        /\ output (fst (Refresh st)) = output st).
Proof.
  destruct (Refresh_spec st) as (_ & Herr & _ & delta & Ht & Hf).
  split.
  - intros secretType identifier e Hin.
    rewrite (new_events_app _ _ _ Ht) in Hin.
    apply in_app_or in Hin as [Hin|[Hin|[]]]; [|discriminate].
    apply Herr. eapply fetch_trace_In; eauto.
  - intros e He. apply Herr. now rewrite He.
Qed.

(** ** RefreshWithRetries *)

Lemma control_app (t1 t2 : list Event) :
  control (t1 ++ t2) = control t1 ++ control t2.
Proof. apply filter_app. Qed.

Lemma control_ok_fetch delta :
  forallb ok_fetch delta = true -> control delta = [].
Proof.
  induction delta as [|e delta IH]; simpl; [reflexivity|].
  intros Hok. apply andb_true_iff in Hok as [He Hok].
  destruct e; try discriminate. simpl. now apply IH.
Qed.

Lemma control_fetch_trace delta err :
  fetch_trace delta err -> control delta = [].
Proof.
  destruct err as [e|]; simpl.
  - intros (d0 & ty & id & -> & Hok).
    rewrite control_app, (control_ok_fetch _ Hok). reflexivity.
  - apply control_ok_fetch.
Qed.

Lemma Refresh_control (st : State) :
  self (fst (Refresh st)) = self st
  /\ exists delta,
      trace (fst (Refresh st)) = trace st ++ delta
      /\ control delta = [EvRefresh (snd (Refresh st))].
Proof.
  destruct (Refresh_spec st) as (Hs & _ & _ & delta & Ht & Hf).
  split; [exact Hs|].
  exists (delta ++ [EvRefresh (snd (Refresh st))]). split; [exact Ht|].
  rewrite control_app, (control_fetch_trace _ _ Hf). reflexivity.
Qed.

Lemma RefreshWithRetries_loop_spec (n : nat) :
  forall wait st,
    let res := RefreshWithRetries_loop n wait st in
    self (fst res) = self st
    /\ exists delta errs,
        trace (fst res) = trace st ++ delta
        /\ control delta
           = schedule errs wait
             ++ match snd res with
                | None => [EvRefresh None]
                | Some _ => []
                end
        /\ (length errs
            + match snd res with None => 1 | Some _ => 0 end <= n)%nat
        /\ (forall e, snd res = Some e ->
                      length errs = n /\ e = "Failed to refresh config").
Proof.
  induction n as [|n IH]; intros wait st; simpl.
  - split; [reflexivity|]. exists [], []. simpl.
    rewrite app_nil_r. split; [reflexivity|]. split; [reflexivity|].
    split; [lia|]. intros e He. now inversion He.
  - destruct (Refresh_control st) as (Hs & delta & Ht & Hc).
    destruct (Refresh st) as [st1 [err|]]; simpl in *.
    + destruct (IH (wrap64 (wait * 2))
                  (sleep (wrap64 (wrap64 (wait * 2) * Second)) st1))
        as (Hs' & delta' & errs & Ht' & Hc' & Hlen & Hfail).
      split; [rewrite Hs'; exact Hs|].
      exists (delta ++ EvSleep (wrap64 (wrap64 (wait * 2) * Second))
                :: delta'), (err :: errs).
      split; [|split; [|split]].
      * rewrite Ht'. simpl. rewrite Ht, <- !app_assoc. reflexivity.
      * rewrite control_app, Hc. simpl. now rewrite Hc'.
      * simpl. simpl in Hlen. lia.
      * intros e He. destruct (Hfail e He) as [Hl ->]. simpl.
        split; [lia|reflexivity].
    + split; [exact Hs|]. exists delta, []. simpl.
      split; [exact Ht|]. split; [exact Hc|]. split; [lia|discriminate].
Qed.

Lemma attempts_control t : attempts (control t) = attempts t.
Proof.
  induction t as [|e t IH]; simpl; [reflexivity|].
  destruct e; simpl; congruence.
Qed.

Lemma attempts_app t1 t2 : attempts (t1 ++ t2) = attempts t1 ++ attempts t2.
Proof.
  induction t1 as [|e t1 IH]; simpl; [reflexivity|].
  destruct e; simpl; congruence.
Qed.

Lemma attempts_schedule errs :
  forall wait, attempts (schedule errs wait) = map Some errs.
Proof.
  induction errs as [|e errs IH]; intros wait; simpl; [reflexivity|].
  now rewrite IH.
Qed.

(** The [Refresh] calls of a [RefreshWithRetries]: failures, then a
    success when it returns nil. *)
Lemma RefreshWithRetries_tries (st : State) :
  let res := RefreshWithRetries st in
  exists errs,
    attempts (new_events st (fst res))
    = map Some errs
      ++ match snd res with None => [None] | Some _ => [] end
    /\ (length errs
        + match snd res with None => 1 | Some _ => 0 end
        <= Z.to_nat (MaxRetries (self st)))%nat
    /\ (forall e, snd res = Some e ->
                  length errs = Z.to_nat (MaxRetries (self st))
                  /\ e = "Failed to refresh config").
Proof.
  intros res. subst res. unfold RefreshWithRetries.
  destruct (RefreshWithRetries_loop_spec
              (Z.to_nat (MaxRetries (self st))) 2 st)
    as (_ & delta & errs & Ht & Hc & Hlen & Hfail).
  exists errs. rewrite (new_events_app _ _ _ Ht).
  rewrite <- attempts_control, Hc, attempts_app, attempts_schedule.
  split; [|split; assumption].
  now destruct (snd (RefreshWithRetries_loop _ 2 st)).
Qed.

(** C1: [RefreshWithRetries] calls [Refresh] at most [MaxRetries] times
    (5 by default; not at all when [MaxRetries] is not positive).  It
    returns nil exactly when an attempt succeeds, and that attempt is the
    last one made.  When it returns an error, [MaxRetries] attempts were
    made and all of them failed. *)
Theorem RefreshWithRetries_attempts (st : State) :
  let res := RefreshWithRetries st in
  let tries := attempts (new_events st (fst res)) in
  MaxRetries NewConfigValues = 5%Z
  /\ (Z.of_nat (length tries) <= Z.max 0 (MaxRetries (self st)))%Z
  /\ (snd res = None <-> In None tries)
  /\ (snd res = None ->
      exists errs, tries = map Some errs ++ [None])
  /\ (forall e, snd res = Some e ->
                e = "Failed to refresh config"
                /\ exists errs,
                    tries = map Some errs
                    /\ length errs = Z.to_nat (MaxRetries (self st))).
Proof.
  intros res tries. subst tries.
  destruct (RefreshWithRetries_tries st) as (errs & Ha & Hlen & Hfail).
  fold res in Ha, Hlen, Hfail. rewrite Ha.
  assert (Hnone : ~ In None (map Some errs)).
  { intros Hin. apply in_map_iff in Hin as (e & He & _). discriminate. }
  split; [reflexivity|]. split; [|split; [|split]].
  - rewrite length_app, length_map.
    destruct (snd res) as [e|]; simpl in *; lia.
  - destruct (snd res) as [e|]; simpl.
    + rewrite app_nil_r. split; [discriminate|]. intros Hin.
      now apply Hnone in Hin.
    + split; [|reflexivity]. intros _. apply in_or_app. right. now left.
  - intros Hres. rewrite Hres. now exists errs.
  - intros e Hres. destruct (Hfail e Hres) as [Hl ->].
    split; [reflexivity|]. rewrite Hres, app_nil_r. now exists errs.
Qed.

Lemma sleeps_control t : sleeps (control t) = sleeps t.
Proof.
  induction t as [|e t IH]; simpl; [reflexivity|].
  destruct e; simpl; congruence.
Qed.

Lemma sleeps_app t1 t2 : sleeps (t1 ++ t2) = sleeps t1 ++ sleeps t2.
Proof.
  induction t1 as [|e t1 IH]; simpl; [reflexivity|].
  destruct e; simpl; congruence.
Qed.

Lemma wrap64_small (z : Z) :
  (- 2 ^ 63 <= z < 2 ^ 63)%Z -> wrap64 z = z.
Proof.
  intros Hz. unfold wrap64. rewrite Z.mod_small; lia.
Qed.

Lemma pow2_bounds (j : nat) :
  (j <= 33)%nat -> (0 < 2 ^ Z.of_nat j <= 2 ^ 33)%Z.
Proof.
  intros Hj. split.
  - apply Z.pow_pos_nonneg; lia.
  - apply Z.pow_le_mono_r; lia.
Qed.

(** From [wait = 2^(j+1)] seconds, the [k]-th sleep takes [2^(j+k+2)]
    seconds, as long as that many nanoseconds fit in a [Duration]. *)
Lemma sleeps_schedule_nth errs :
  forall j k,
    (k < length errs)%nat -> (j + k < 32)%nat ->
    nth k (sleeps (schedule errs (2 ^ Z.of_nat (j + 1)))) 0%Z
    = (2 ^ Z.of_nat (j + k + 2) * Second)%Z.
Proof.
  induction errs as [|e errs IH]; intros j k Hk Hj; simpl in Hk; [lia|].
  assert (Hw : wrap64 (2 ^ Z.of_nat (j + 1) * 2) = (2 ^ Z.of_nat (j + 2))%Z).
  { replace (Z.of_nat (j + 2)) with (Z.of_nat (j + 1) + 1)%Z by lia.
    rewrite Z.pow_add_r, Z.pow_1_r by lia.
    apply wrap64_small.
    pose proof (pow2_bounds (j + 1) ltac:(lia)). lia. }
  simpl. rewrite Hw. destruct k as [|k].
  - replace (j + 0 + 2)%nat with (j + 2)%nat by lia.
    apply wrap64_small.
    pose proof (pow2_bounds (j + 2) ltac:(lia)). unfold Second. lia.
  - replace (j + 2)%nat with (S j + 1)%nat by lia.
    rewrite (IH (S j) k) by lia.
    f_equal. f_equal. lia.
Qed.

Lemma sleeps_schedule_length errs :
  forall wait, length (sleeps (schedule errs wait)) = length errs.
Proof.
  induction errs as [|e errs IH]; intros wait; simpl; [reflexivity|].
  now rewrite IH.
Qed.

Lemma backoff_shape_schedule errs :
  forall wait tail,
    backoff_shape tail = true ->
    backoff_shape (schedule errs wait ++ tail) = true.
Proof.
  induction errs as [|e errs IH]; intros wait tail Htail; simpl;
    [exact Htail|]. now apply IH.
Qed.

(** C7, as the code has it: a sleep follows every failed attempt, the
    last one included, and nothing else sleeps.  The first sleep takes 4
    seconds and each later one twice the one before, for the 32 sleeps
    whose duration in nanoseconds fits in 64 bits. *)
Theorem RefreshWithRetries_backoff (st : State) :
  let delta := new_events st (fst (RefreshWithRetries st)) in
  backoff_shape (control delta) = true
  /\ (forall k,
        (k < length (sleeps delta))%nat -> (k < 32)%nat ->
        nth k (sleeps delta) 0%Z = (4 * 2 ^ Z.of_nat k * Second)%Z).
Proof.
  intros delta. subst delta. unfold RefreshWithRetries.
  destruct (RefreshWithRetries_loop_spec
              (Z.to_nat (MaxRetries (self st))) 2 st)
    as (_ & delta & errs & Ht & Hc & _ & _).
  rewrite (new_events_app _ _ _ Ht). split.
  - rewrite Hc. apply backoff_shape_schedule.
    now destruct (snd (RefreshWithRetries_loop _ 2 st)).
  - intros k Hk Hk32. rewrite <- sleeps_control in Hk |- *.
    rewrite Hc, sleeps_app in Hk |- *.
    assert (Htail : sleeps match snd (RefreshWithRetries_loop
                                       (Z.to_nat (MaxRetries (self st)))
                                       2 st) with
                           | None => [EvRefresh None]
                           | Some _ => []
                           end = []).
    { now destruct (snd (RefreshWithRetries_loop _ 2 st)). }
    rewrite Htail, app_nil_r in Hk |- *.
    rewrite sleeps_schedule_length in Hk.
    change 2%Z with (2 ^ Z.of_nat (0 + 1))%Z at 1.
    rewrite (sleeps_schedule_nth errs 0 k Hk) by lia.
    replace (Z.of_nat (0 + k + 2)) with (2 + Z.of_nat k)%Z by lia.
    rewrite Z.pow_add_r by lia. reflexivity.
Qed.

(** ** The receiver *)

Lemma Refresh_receiver_frame (st : State) :
  self (fst (Refresh st)) = self st
  /\ self (fst (RefreshWithRetries st)) = self st.
Proof.
  split; [apply Refresh_spec|apply RefreshWithRetries_loop_spec].
Qed.

(** C9: [Refresh] and [RefreshWithRetries] leave the receiver as it was,
    whatever they return; an operation that changes it is [Clear],
    [SetFromMap] or [SetFromJSON].  [Clear] empties [Sources] and
    [Static], [SetFromMap] replaces [Static], and neither writes another
    field. *)
Theorem Refresh_receiver_unchanged (st : State) :
  self (fst (Refresh st)) = self st
  /\ self (fst (RefreshWithRetries st)) = self st
  /\ (forall op,
        self (exec st op) <> self st ->
        op = OpClear
        \/ (exists m, op = OpSetFromMap m)
        \/ (exists filename, op = OpSetFromJSON filename))
  /\ (let c := self (Clear st) in
      Sources c = [] /\ Static c = MNil
      /\ MaxRetries c = MaxRetries (self st)
      /\ KeyPrefixes c = KeyPrefixes (self st)
      /\ ValuePrefixes c = ValuePrefixes (self st))
  /\ (forall m,
        let c := self (fst (SetFromMap m st)) in
        Sources c = Sources (self st)
        /\ MaxRetries c = MaxRetries (self st)
        /\ KeyPrefixes c = KeyPrefixes (self st)
        /\ ValuePrefixes c = ValuePrefixes (self st)).
Proof.
  destruct (Refresh_receiver_frame st) as [HR HW].
  split; [exact HR|]. split; [exact HW|]. split; [|split].
  - intros op Hop. destruct op; simpl in Hop; eauto; contradiction.
  - simpl. repeat split.
  - intros m. unfold SetFromMap.
    destruct (GenerateFromMap (self st) m); simpl; repeat split.
Qed.

Lemma exec_Sources (st : State) (op : Op) :
  Sources (self st) = [] -> Sources (self (exec st op)) = [].
Proof.
  intros Hs.
  pose proof (Refresh_receiver_frame st) as (HR & HW).
  destruct op; simpl; try congruence.
  - unfold SetFromJSON.
    destruct (LoadJSON filename (world st)) as [w [err|value]];
      [exact Hs|].
    unfold SetFromMap. simpl.
    destruct (GenerateFromMap (self st) value); exact Hs.
  - unfold SetFromMap.
    destruct (GenerateFromMap (self st) m); exact Hs.
Qed.

Lemma run_Sources (ops : list Op) :
  forall st, Sources (self st) = [] -> Sources (self (run ops st)) = [].
Proof.
  induction ops as [|op ops IH]; intros st Hs; [exact Hs|].
  apply IH. now apply exec_Sources.
Qed.

(** C10: after any sequence of [Clear], [SetFromJSON], [SetFromMap],
    [Refresh] and [RefreshWithRetries] on a [NewConfigValues()],
    [Sources] is empty and [IsRefreshable] returns false. *)
Theorem Sources_stays_empty (ops : list Op) (w : World) (o : Output) :
  let c := self (run ops (init w o)) in
  Sources c = [] /\ IsRefreshable c = false.
Proof.
  intros c. assert (Hs : Sources c = []) by now apply run_Sources.
  split; [exact Hs|]. unfold IsRefreshable. now rewrite Hs.
Qed.

(** ** Configurations without placeholders *)

Lemma RefreshMap_range_identity src :
  forall dst st,
    M.wf (M.app dst src) = true ->
    no_source src = true ->
    RefreshMap_range src dst st = (st, inr (M.app dst src)).
Proof.
  induction src using Map_mut with
    (P := fun v => match v with
                   | VMap m => forall dst st,
                       M.wf (M.app dst m) = true ->
                       no_source m = true ->
                       RefreshMap_range m dst st = (st, inr (M.app dst m))
                   | _ => True
                   end); try exact I; try assumption.
  - intros dst st _ _. simpl. now rewrite Map_app_nil_r.
  - intros dst st Hwf Hclean.
    destruct (wf_app_cons _ _ _ _ Hwf) as [Hfresh Hv].
    simpl in Hclean. apply andb_true_iff in Hclean as [Hleaf Hrest].
    assert (Hnext : forall v',
               M.wf (M.app dst (MCons key v' src)) = true ->
               RefreshMap_range src (M.set dst key v') st
               = (st, inr (M.app dst (MCons key v' src)))).
    { intros v' Hwf'. rewrite (set_fresh _ _ _ Hfresh).
      rewrite IHsrc0; [now rewrite Map_app_cons_assoc| |exact Hrest].
      now rewrite Map_app_cons_assoc. }
    destruct value; simpl; try (apply Hnext; exact Hwf);
      [|discriminate].
    unfold bind. rewrite (IHsrc MNil st Hv Hleaf). simpl.
    apply Hnext; exact Hwf.
Qed.

(** C8: a configuration without provider prefixes and without [Source]
    values resolves to itself, without a call to a provider; so resolving
    what it resolved to returns the same map again. *)
Theorem resolve_idempotent (c : ConfigValues) (src : Map) (st : State) :
  M.wf src = true ->
  no_provider_prefix c src = true ->
  no_source src = true ->
  resolve c src st = (st, inr src)
  /\ (forall st1 out,
        resolve c src st = (st1, inr out) ->
        resolve c out st1 = (st1, inr out)).
Proof.
  intros Hwf Hprefix Hsource.
  assert (Hres : forall st', resolve c src st' = (st', inr src)).
  { intros st'. unfold resolve.
    unfold GenerateFromMap.
    rewrite (GenerateFromMap_range_identity c src MNil Hwf Hprefix).
    simpl. unfold RefreshMap.
    now rewrite (RefreshMap_range_identity src MNil st' Hwf Hsource). }
  split; [apply Hres|].
  intros st1 out Hrun. rewrite Hres in Hrun.
  inversion Hrun; subst. apply Hres.
Qed.

End RefreshFacts.

(** ** SSM parameters by path *)

Lemma length_append (s1 s2 : string) :
  String.length (s1 ++ s2) = String.length s1 + String.length s2.
Proof. induction s1 as [|a s1 IH]; simpl; congruence. Qed.

Lemma drop_append (s1 s2 : string) :
  strings.drop (String.length s1) (s1 ++ s2) = s2.
Proof. induction s1 as [|a s1 IH]; simpl; [now destruct s2|exact IH]. Qed.

Lemma take_append (s1 s2 : string) :
  strings.take (String.length s1) (s1 ++ s2) = s1.
Proof.
  induction s1 as [|a s1 IH]; simpl; [now destruct s2|now rewrite IH].
Qed.

Lemma HasSuffix_append (s suffix : string) :
  strings.HasSuffix (s ++ suffix) suffix = true.
Proof.
  unfold strings.HasSuffix. rewrite length_append.
  replace (String.length s + String.length suffix - String.length suffix)
    with (String.length s) by lia.
  rewrite drop_append, String.eqb_refl.
  apply andb_true_iff. split; [|reflexivity]. apply Nat.leb_le. lia.
Qed.

Lemma Split_no_sep (sep : ascii) (s : string) :
  no_sep sep s = true -> strings.Split s sep = [s].
Proof.
  induction s as [|a s IH]; simpl; [reflexivity|].
  intros Hs. apply andb_true_iff in Hs as [Ha Hs].
  apply negb_true_iff in Ha. now rewrite Ha, (IH Hs).
Qed.

Lemma Split_not_nil (sep : ascii) (s : string) : strings.Split s sep <> [].
Proof.
  destruct s as [|a s]; simpl; [discriminate|].
  destruct (Ascii.eqb a sep); [discriminate|].
  destruct (strings.Split s sep); discriminate.
Qed.

Lemma Split_append_length (sep : ascii) (dir base : string) :
  2 <= length (strings.Split (dir ++ String sep base) sep).
Proof.
  induction dir as [|a dir IH]; simpl.
  - rewrite Ascii.eqb_refl. simpl.
    pose proof (Split_not_nil sep base).
    destruct (strings.Split base sep); [contradiction|simpl; lia].
  - destruct (Ascii.eqb a sep); simpl; [lia|].
    destruct (strings.Split (dir ++ String sep base) sep); simpl in *; lia.
Qed.

Lemma last_cons_cons {A} (a b : A) (l : list A) (d : A) :
  last (a :: b :: l) d = last (b :: l) d.
Proof. reflexivity. Qed.

(** The last segment of [dir/base] is [base]. *)
Lemma last_segment_append (dir base : string) :
  no_sep "/" base = true ->
  last_segment (dir ++ String "/" base) = base.
Proof.
  intros Hbase. unfold last_segment.
  induction dir as [|a dir IH]; simpl.
  - now rewrite (Split_no_sep _ _ Hbase).
  - pose proof (Split_append_length "/" dir base) as Hlen.
    destruct (strings.Split (dir ++ String "/" base) "/")
      as [|part [|part' parts]]; simpl in Hlen; try lia.
    destruct (Ascii.eqb a "/"); rewrite !last_cons_cons in *; exact IH.
Qed.

Lemma find_append {A} (f : A -> bool) (l1 l2 : list A) :
  find f (l1 ++ l2)%list
  = match find f l1 with Some a => Some a | None => find f l2 end.
Proof.
  induction l1 as [|a l1 IH]; simpl; [reflexivity|].
  now destruct (f a).
Qed.

(** The map that [getParametersByPath] builds binds a key to the value of
    the last parameter whose name ends in that segment. *)
Lemma getParametersByPath_fold (parameters : list (string * string)) :
  forall result k,
    SM.get
      (fold_left
         (fun result parameter =>
            SM.set result (last_segment (fst parameter)) (snd parameter))
         parameters result) k
    = match find (fun p => String.eqb (last_segment (fst p)) k)
              (rev parameters) with
      | Some p => Some (snd p)
      | None => SM.get result k
      end.
Proof.
  induction parameters as [|p parameters IH]; intros result k; simpl;
    [reflexivity|].
  rewrite IH, find_append.
  destruct (find _ (rev parameters)) as [q|]; [reflexivity|]. simpl.
  destruct (String.eqb (last_segment (fst p)) k) eqn:E.
  - apply String.eqb_eq in E. subst k.
    generalize (last_segment (fst p)) (snd p). intros k v.
    induction result as [|[k' v'] result IHr]; simpl.
    + now rewrite String.eqb_refl.
    + destruct (String.eqb k' k) eqn:E'; simpl.
      * now rewrite String.eqb_refl.
      * now rewrite E'.
  - generalize (last_segment (fst p)) (snd p) E. intros k0 v Hne.
    induction result as [|[k' v'] result IHr]; simpl.
    + now rewrite Hne.
    + destruct (String.eqb k' k0) eqn:E'; simpl.
      * apply String.eqb_eq in E'. subst k'. now rewrite Hne.
      * now rewrite IHr.
Qed.

Section SSMFacts.

Context `{Env}.

(** C6: for an SSM [Source] whose identifier is [path/*], [RefreshMap]
  asks for the parameters under [path] and binds, under the key of the
  entry, a map from the last segment of the name of each parameter
  returned to its value (to the value of the last such parameter when
  several names end in the same segment). *)
Theorem RefreshMap_ssm_path (key : string) (source : Source) (dst : Map)
  (st : State) (path : string) :
Type_ source = "SSM" ->
Identifier source = path ++ "/*" ->
let res := RefreshMap_source key source dst st in
match ssm_GetParametersByPath path (world st) with
| (w, inl err) => world (fst res) = w /\ snd res = inl err
| (w, inr parameters) =>
    world (fst res) = w
    /\ exists values,
        snd res = inr (M.set dst key (VStringMap values))
        /\ M.get (M.set dst key (VStringMap values)) key
           = Some (VStringMap values)
        /\ forall k,
            SM.get values k
            = option_map snd
                (find (fun p => String.eqb (last_segment (fst p)) k)
                   (rev parameters))
end
/\ (forall dir base,
      no_sep "/" base = true ->
      last_segment (dir ++ String "/" base) = base).
Proof.
intros Htype Hid res. split; [|exact last_segment_append].
subst res. unfold RefreshMap_source. rewrite Htype, Hid.
cbn [String.eqb Ascii.eqb Bool.eqb].
rewrite HasSuffix_append, length_append.
replace (String.length path + String.length "/*" - 2)
  with (String.length path) by (simpl; lia).
rewrite take_append.
unfold bind, new_SSMClient, fetch, getParametersByPath, ret.
destruct (SSMClient (refresh_state st)); simpl;
  destruct (ssm_GetParametersByPath path (world st))
    as [w [err|parameters]]; simpl.
- now split.
- split; [reflexivity|]. eexists. split; [reflexivity|].
  split; [apply get_set_same|]. intros k.
  change (fun result parameter =>
            SM.set result (last (strings.Split (fst parameter) "/") "")
              (snd parameter))
    with (fun result parameter =>
            SM.set result (last_segment (fst parameter)) (snd parameter)).
  rewrite getParametersByPath_fold.
  now destruct (find _ (rev parameters)).
- now split.
- split; [reflexivity|]. eexists. split; [reflexivity|].
  split; [apply get_set_same|]. intros k.
  change (fun result parameter =>
            SM.set result (last (strings.Split (fst parameter) "/") "")
              (snd parameter))
    with (fun result parameter =>
            SM.set result (last_segment (fst parameter)) (snd parameter)).
  rewrite getParametersByPath_fold.
  now destruct (find _ (rev parameters)).
Qed.

End SSMFacts.

(** ** The statements on concrete runs *)

Lemma GenerateFromMap_identity_witness :
  GenerateFromMap NewConfigValues Sim.plain = inr Sim.plain.
Proof.
  apply GenerateFromMap_identity; reflexivity.
Defined.

Lemma key_prefix_precedence_witness :
  GenerateFromMap NewConfigValues
    (MCons "KMS_db" (VString "ssm://db/password") MNil)
  = inr (MCons "db" (VSource (mkSource "KMS" "db" "ssm://db/password")) MNil).
Proof.
  apply (key_prefix_precedence NewConfigValues "KMS_db" "ssm://db/password"
           "KMS" "KMS_" "SSM" "ssm://").
  - apply Permutation_refl.
  - simpl. auto.
  - reflexivity.
  - simpl. auto.
  - reflexivity.
Defined.

Lemma GenerateFromMap_leaf_witness :
  records NewConfigValues "SSM__token" "/app/token" ""
    (VSource (mkSource "SSM" "" "/app/token"))
  /\ records NewConfigValues "token" "ssm:///app/token" "token"
       (VSource (mkSource "SSM" "token" "/app/token"))
  /\ records NewConfigValues "region" "eu-west-1" "region"
       (VString "eu-west-1").
Proof.
  split; [|split].
  - apply (proj1 (GenerateFromMap_leaf NewConfigValues "SSM__token"
                    "/app/token" (Permutation_refl _) (Permutation_refl _))
             "SSM" "SSM_").
    + simpl. auto.
    + reflexivity.
  - apply (proj1 (proj2 (GenerateFromMap_leaf NewConfigValues "token"
                           "ssm:///app/token" (Permutation_refl _)
                           (Permutation_refl _)))
             eq_refl "SSM" "ssm://").
    + simpl. auto.
    + reflexivity.
  - apply (proj2 (proj2 (GenerateFromMap_leaf NewConfigValues "region"
                           "eu-west-1" (Permutation_refl _)
                           (Permutation_refl _))));
      reflexivity.
Defined.

Lemma RefreshWithRetries_attempts_witness :
  let st := Sim.configured Sim.throttled in
  exists errs,
    attempts (new_events st (fst (@RefreshWithRetries Sim.env st)))
    = (map Some errs ++ [None])%list.
Proof.
  intros st.
  destruct (@RefreshWithRetries_attempts Sim.env st)
    as (_ & _ & _ & Hnil & _).
  apply Hnil. reflexivity.
Defined.

Lemma Refresh_provider_error_witness :
  let st := Sim.configured Sim.missing_file in
  snd (@Refresh Sim.env st) = Some "no such file or directory"
  /\ output (fst (@Refresh Sim.env st)) = output st.
Proof.
  intros st.
  apply (proj1 (@Refresh_provider_error Sim.env st) "FILE" "/etc/issue").
  vm_compute. left. reflexivity.
Defined.

Lemma RefreshMap_ssm_path_witness :
  let st := Sim.configured MNil in
  let source := mkSource "SSM" "cfg" "/app/*" in
  exists values,
    snd (@RefreshMap_source Sim.env "cfg" source MNil st)
    = inr (M.set MNil "cfg" (VStringMap values))
    /\ SM.get values "password" = Some "hunter2".
Proof.
  intros st source.
  destruct (proj1 (@RefreshMap_ssm_path Sim.env "cfg" source MNil st "/app"
                     eq_refl eq_refl))
    as (_ & values & Hres & _ & Hget).
  exists values. split; [exact Hres|]. rewrite Hget. reflexivity.
Defined.

Lemma RefreshWithRetries_backoff_witness :
  let st := Sim.configured Sim.throttled in
  nth 1 (sleeps (new_events st (fst (@RefreshWithRetries Sim.env st)))) 0%Z
  = (4 * 2 ^ Z.of_nat 1 * Second)%Z.
Proof.
  intros st.
  apply (proj2 (@RefreshWithRetries_backoff Sim.env st) 1%nat).
  - vm_compute. lia.
  - lia.
Defined.

(** With the default of 5 attempts and a file that does not exist, the
    loop sleeps for 64 seconds after the last attempt and returns. *)
Lemma sleeps_only_between_attempts_counterexample :
  ~ @sleeps_only_between_attempts Sim.env (Sim.configured Sim.missing_file).
Proof.
  intros [_ Hbetween]. vm_compute in Hbetween. discriminate.
Qed.

Lemma resolve_idempotent_witness :
  let st := Sim.configured MNil in
  @resolve Sim.env NewConfigValues Sim.plain st = (st, inr Sim.plain).
Proof.
  intros st.
  apply (proj1 (@resolve_idempotent Sim.env NewConfigValues Sim.plain st
                  eq_refl eq_refl eq_refl)).
Defined.

(** * Further properties *)

(** ** GenerateFromMap as a sequence of assignments *)

Lemma GenerateFromMap_string_written c key s dst :
  GenerateFromMap_string c key s dst
  = M.set dst (written_key c key (VString s))
      (written_value c key (VString s)).
Proof.
  unfold GenerateFromMap_string, written_key, written_value.
  rewrite range_KeyPrefixes_find.
  destruct (find _ (KeyPrefixes c)) as [e|]; simpl; [reflexivity|].
  rewrite range_ValuePrefixes_find.
  now destruct (find _ (ValuePrefixes c)) as [e|].
Qed.

Lemma GenerateFromMap_range_step c key value rest dst :
  GenerateFromMap_range c (MCons key value rest) dst
  = GenerateFromMap_range c rest
      (M.set dst (written_key c key value) (written_value c key value)).
Proof.
  destruct value; try reflexivity.
  - simpl. now rewrite GenerateFromMap_string_written.
  - simpl. unfold GenerateFromMap.
    destruct (GenerateFromMap_range_total c m MNil) as [val Hval].
    now rewrite Hval.
Qed.

Lemma get_set (m : Map) (k k' : string) (v : Value) :
  M.get (M.set m k v) k' = if String.eqb k k' then Some v else M.get m k'.
Proof.
  destruct (String.eqb k k') eqn:E.
  - apply String.eqb_eq in E. subst k'. apply get_set_same.
  - apply get_set_other. intros ->. now rewrite String.eqb_refl in E.
Qed.

(** The binding of [k] in what the loop returns is the one written by the
    last entry visited that writes [k]; without such an entry it is the
    binding of [k] in [dst]. *)
Lemma GenerateFromMap_range_get c src :
  forall dst out k,
    GenerateFromMap_range c src dst = inr out ->
    M.get out k
    = match find (writes c k) (rev (entries src)) with
      | Some e => Some (written_value c (fst e) (snd e))
      | None => M.get dst k
      end.
Proof.
  induction src as [|key value rest IH]; intros dst out k Hrun.
  - simpl in *. now inversion Hrun.
  - rewrite GenerateFromMap_range_step in Hrun.
    rewrite (IH _ _ k Hrun). simpl entries. simpl rev.
    rewrite find_append.
    destruct (find (writes c k) (rev (entries rest))) as [e|];
      [reflexivity|].
    simpl. unfold writes at 1. simpl. rewrite get_set.
    now destruct (String.eqb (written_key c key value) k).
Qed.

(** X1: [GenerateFromMap] returns a nil error on every input, so
    [SetFromMap] returns nil and installs the generated map, and
    [SetFromJSON] returns an error exactly when the file could not be read
    or decoded; the receiver is then as it was. *)
Theorem SetFromMap_never_fails `{Env} (st : State) :
  (forall m,
      snd (SetFromMap m st) = None
      /\ GenerateFromMap (self st) m
         = inr (Static (self (fst (SetFromMap m st)))))
  /\ (forall filename e,
        snd (SetFromJSON filename st) = Some e
        <-> snd (LoadJSON filename (world st)) = inl e)
  /\ (forall filename e,
        snd (SetFromJSON filename st) = Some e ->
        self (fst (SetFromJSON filename st)) = self st).
Proof.
  assert (Hmap : forall m st',
             snd (SetFromMap m st') = None
             /\ GenerateFromMap (self st') m
                = inr (Static (self (fst (SetFromMap m st'))))).
  { intros m st'. unfold SetFromMap, GenerateFromMap.
    destruct (GenerateFromMap_range_total (self st') m MNil) as [out Hout].
    rewrite Hout. simpl. now split. }
  split; [intros m; apply Hmap|]. split.
  - intros filename e. unfold SetFromJSON.
    destruct (LoadJSON filename (world st)) as [w [err|value]]; simpl.
    + split; intros Heq; now inversion Heq.
    + rewrite (proj1 (Hmap value (set_world st w))).
      split; discriminate.
  - intros filename e. unfold SetFromJSON.
    destruct (LoadJSON filename (world st)) as [w [err|value]]; simpl.
    + reflexivity.
    + rewrite (proj1 (Hmap value (set_world st w))). discriminate.
Qed.

(** X2: in the map that [GenerateFromMap] returns, a key is bound to what
    the last entry visited that writes this key stored, and it is not
    bound when no entry writes it. *)
Theorem GenerateFromMap_last_writer (c : ConfigValues) (src out : Map)
    (k : string) :
  GenerateFromMap c src = inr out ->
  M.get out k
  = option_map (fun e => written_value c (fst e) (snd e))
      (find (writes c k) (rev (entries src))).
Proof.
  intros Hrun. unfold GenerateFromMap in Hrun.
  rewrite (GenerateFromMap_range_get c src MNil out k Hrun).
  now destruct (find (writes c k) (rev (entries src))).
Qed.

(** ** Iteration order *)

Lemma NoDup_map_inj {A B} (f : A -> B) (l : list A) (a b : A) :
  NoDup (map f l) -> In a l -> In b l -> f a = f b -> a = b.
Proof.
  induction l as [|x l IH]; simpl; intros Hnd Ha Hb Hf; [contradiction|].
  inversion Hnd as [|y l' Hnotin Hnd']; subst.
  destruct Ha as [->|Ha], Hb as [->|Hb]; auto.
  - exfalso. apply Hnotin. rewrite Hf. now apply in_map.
  - exfalso. apply Hnotin. rewrite <- Hf. now apply in_map.
Qed.

(** Among entries that write different keys, the entry found for a key
    does not depend on the order. *)
Lemma find_writes_Permutation c k (l1 l2 : list (string * Value)) :
  Permutation l1 l2 ->
  NoDup (map (fun e => written_key c (fst e) (snd e)) l1) ->
  find (writes c k) l1 = find (writes c k) l2.
Proof.
  intros HP Hnd.
  destruct (find (writes c k) l1) as [e1|] eqn:E1;
    destruct (find (writes c k) l2) as [e2|] eqn:E2; try reflexivity.
  - apply find_some in E1 as [Hin1 Hw1]. apply find_some in E2 as [Hin2 Hw2].
    f_equal.
    apply (NoDup_map_inj (fun e => written_key c (fst e) (snd e)) l1);
      auto.
    + eapply Permutation_in; [apply Permutation_sym; exact HP|exact Hin2].
    + unfold writes in *. apply String.eqb_eq in Hw1, Hw2. congruence.
  - apply find_some in E1 as [Hin1 Hw1].
    rewrite (find_none _ _ E2 e1) in Hw1; [discriminate|].
    eapply Permutation_in; eauto.
  - apply find_some in E2 as [Hin2 Hw2].
    rewrite (find_none _ _ E1 e2) in Hw2; [discriminate|].
    eapply Permutation_in; [apply Permutation_sym; exact HP|exact Hin2].
Qed.

(** X3: when no two entries of a map write the same key, the map that
    [GenerateFromMap] returns has the same bindings whatever the order in
    which the entries are visited.  When two entries write the same key,
    the order decides which one is kept. *)
Theorem GenerateFromMap_order (c : ConfigValues) :
  (forall src1 src2 out1 out2,
      Permutation (entries src1) (entries src2) ->
      NoDup (map (fun e => written_key c (fst e) (snd e)) (entries src1)) ->
      GenerateFromMap c src1 = inr out1 ->
      GenerateFromMap c src2 = inr out2 ->
      forall k, M.get out1 k = M.get out2 k)
  /\ (exists src1 src2 out1 out2 k,
        Permutation (entries src1) (entries src2)
        /\ M.wf src1 = true
        /\ GenerateFromMap NewConfigValues src1 = inr out1
        /\ GenerateFromMap NewConfigValues src2 = inr out2
        /\ M.get out1 k <> M.get out2 k).
Proof.
  split.
  - intros src1 src2 out1 out2 HP Hnd H1 H2 k.
    unfold GenerateFromMap in H1, H2.
    rewrite (GenerateFromMap_range_get c src1 MNil out1 k H1).
    rewrite (GenerateFromMap_range_get c src2 MNil out2 k H2).
    rewrite (find_writes_Permutation c k (rev (entries src1))
               (rev (entries src2))); [reflexivity| |].
    + apply Permutation_trans with (entries src1);
        [apply Permutation_sym, Permutation_rev|].
      apply Permutation_trans with (entries src2);
        [exact HP|apply Permutation_rev].
    + rewrite map_rev. apply NoDup_rev. exact Hnd.
  - exists (MCons "KMS_db" (VString "AQICAHh") (MCons "db" (VString "x") MNil)),
      (MCons "db" (VString "x") (MCons "KMS_db" (VString "AQICAHh") MNil)).
    eexists. eexists. exists "db".
    split; [apply perm_swap|]. split; [reflexivity|].
    split; [reflexivity|]. split; [reflexivity|].
    simpl. discriminate.
Qed.

Lemma GenerateFromMap_order_witness :
  M.get (MCons "db" (VSource (mkSource "KMS" "db" "AQICAHh"))
           (MCons "region" (VString "eu-west-1") MNil)) "db"
  = M.get (MCons "region" (VString "eu-west-1")
             (MCons "db" (VSource (mkSource "KMS" "db" "AQICAHh")) MNil)) "db".
Proof.
  apply (proj1 (GenerateFromMap_order NewConfigValues)
           (MCons "KMS_db" (VString "AQICAHh")
              (MCons "region" (VString "eu-west-1") MNil))
           (MCons "region" (VString "eu-west-1")
              (MCons "KMS_db" (VString "AQICAHh") MNil))).
  - apply perm_swap.
  - repeat constructor; simpl; intuition discriminate.
  - reflexivity.
  - reflexivity.
Defined.

(** ** GenerateFromMap on its own result *)

Lemma mem_keys_set (x k : string) (v : Value) (m : Map) :
  M.mem x (M.keys (M.set m k v)) = M.mem x (M.keys m) || String.eqb k x.
Proof.
  induction m as [|key value rest IH]; simpl.
  - now rewrite orb_false_r.
  - destruct (String.eqb key k) eqn:E; simpl.
    + apply String.eqb_eq in E. subst key.
      destruct (String.eqb k x); simpl; [reflexivity|].
      now rewrite orb_false_r.
    + rewrite IH. now rewrite orb_assoc.
Qed.

Lemma wf_nop_set c (dst : Map) (k : string) (v : Value) :
  M.wf dst = true -> no_provider_prefix c dst = true ->
  kept_as_is c k v = true ->
  M.wf (M.set dst k v) = true
  /\ no_provider_prefix c (M.set dst k v) = true.
Proof.
  intros Hwf Hnop Hv.
  assert (Hv' : match v with VMap m' => M.wf m' | _ => true end = true
                /\ match v with
                   | VString s =>
                       negb (has_prefix_in (KeyPrefixes c) k)
                       && negb (has_prefix_in (ValuePrefixes c) s)
                   | VMap m' => no_provider_prefix c m'
                   | _ => true
                   end = true).
  { destruct v; simpl in Hv; auto.
    apply andb_true_iff in Hv. tauto. }
  clear Hv. destruct Hv' as [Hv1 Hv2].
  induction dst as [|key value rest IH]; simpl in *.
  - rewrite Hv1, Hv2. now split.
  - apply andb_true_iff in Hwf as [Hwf Hrest].
    apply andb_true_iff in Hwf as [Hkey Hval].
    apply andb_true_iff in Hnop as [Hleaf Hnrest].
    destruct (String.eqb key k) eqn:E; simpl.
    + apply String.eqb_eq in E. subst key.
      rewrite Hkey, Hv1, Hrest, Hv2, Hnrest. now split.
    + destruct (IH Hrest Hnrest) as [IH1 IH2].
      rewrite mem_keys_set, IH1, IH2, Hval, Hleaf.
      apply negb_true_iff in Hkey. rewrite Hkey. simpl.
      rewrite String.eqb_sym, E. now split.
Qed.

Lemma find_none_has_prefix table s :
  find (fun e => strings.HasPrefix s (snd e)) table = None ->
  has_prefix_in table s = false.
Proof.
  induction table as [|e table IH]; simpl; [reflexivity|].
  destruct (strings.HasPrefix s (snd e)); [discriminate|exact IH].
Qed.

(** What the loop of [GenerateFromMap] returns binds each key once and
    has no string leaf with a provider prefix, when [dst] is such a map. *)
Lemma GenerateFromMap_range_kept c src :
  forall dst out,
    M.wf dst = true -> no_provider_prefix c dst = true ->
    GenerateFromMap_range c src dst = inr out ->
    M.wf out = true /\ no_provider_prefix c out = true.
Proof.
  induction src using Map_mut with
    (P := fun v => match v with
                   | VMap m => forall dst out,
                       M.wf dst = true -> no_provider_prefix c dst = true ->
                       GenerateFromMap_range c m dst = inr out ->
                       M.wf out = true /\ no_provider_prefix c out = true
                   | _ => True
                   end); try exact I; try assumption.
  - intros dst out Hwf Hnop Hrun. simpl in Hrun. inversion Hrun; subst.
    now split.
  - intros dst out Hwf Hnop Hrun.
    rewrite GenerateFromMap_range_step in Hrun.
    assert (Hkept : kept_as_is c (written_key c key value)
                      (written_value c key value) = true).
    { destruct value; try reflexivity.
      - unfold written_key, written_value.
        destruct (find _ (KeyPrefixes c)) as [e|] eqn:Ek; [reflexivity|].
        destruct (find _ (ValuePrefixes c)) as [e|] eqn:Ev; [reflexivity|].
        simpl. now rewrite (find_none_has_prefix _ _ Ek),
                 (find_none_has_prefix _ _ Ev).
      - simpl. unfold GenerateFromMap.
        destruct (GenerateFromMap_range c m MNil) as [err|val] eqn:Eval;
          [reflexivity|].
        destruct (IHsrc MNil val eq_refl eq_refl Eval) as [H1 H2].
        simpl. now rewrite H1, H2. }
    destruct (wf_nop_set c dst _ _ Hwf Hnop Hkept) as [Hwf' Hnop'].
    exact (IHsrc0 _ _ Hwf' Hnop' Hrun).
Qed.

(** X4: [GenerateFromMap] applied to a map it returned returns that map
    again: placeholders are recognized once. *)
Theorem GenerateFromMap_idempotent (c : ConfigValues) (src out : Map) :
  GenerateFromMap c src = inr out ->
  GenerateFromMap c out = inr out.
Proof.
  intros Hrun. unfold GenerateFromMap in *.
  destruct (GenerateFromMap_range_kept c src MNil out eq_refl eq_refl Hrun)
    as [Hwf Hnop].
  now rewrite (GenerateFromMap_range_identity c out MNil Hwf Hnop).
Qed.

Lemma GenerateFromMap_idempotent_witness :
  GenerateFromMap NewConfigValues
    (MCons "db" (VSource (mkSource "KMS" "db" "ssm://x"))
       (MCons "nested" (VMap (MCons "token"
                                (VSource (mkSource "SSM" "token" "/app/*"))
                                MNil)) MNil))
  = inr (MCons "db" (VSource (mkSource "KMS" "db" "ssm://x"))
           (MCons "nested" (VMap (MCons "token"
                                    (VSource (mkSource "SSM" "token" "/app/*"))
                                    MNil)) MNil)).
Proof.
  apply (GenerateFromMap_idempotent NewConfigValues
           (MCons "KMS_db" (VString "ssm://x")
              (MCons "nested" (VMap (MCons "token" (VString "ssm:///app/*")
                                       MNil)) MNil))).
  reflexivity.
Defined.

(** ** Sources and their names *)

Lemma known_type_false (t : string) :
  known_type t = false ->
  String.eqb t "FILE" = false /\ String.eqb t "SSM" = false
  /\ String.eqb t "SECRETS_MANAGER" = false /\ String.eqb t "KMS" = false.
Proof.
  unfold known_type. simpl. intros Hk.
  repeat (apply orb_false_iff in Hk as [? Hk]). auto.
Qed.

(** X5: a [Source] whose type is none of KMS, SSM, SECRETS_MANAGER and
    FILE is dropped by [RefreshMap]: no provider is called, no error is
    returned, and nothing is bound for its entry. *)
Theorem RefreshMap_unknown_type `{Env} (key : string) (source : Source)
    (rest dst : Map) (st : State) :
  known_type (Type_ source) = false ->
  RefreshMap_source key source dst st = (st, inr dst)
  /\ RefreshMap_range (MCons key (VSource source) rest) dst st
     = RefreshMap_range rest dst st.
Proof.
  intros Hk. destruct (known_type_false _ Hk) as (H1 & H2 & H3 & H4).
  assert (Hsrc : RefreshMap_source key source dst st = (st, inr dst)).
  { unfold RefreshMap_source. now rewrite H1, H2, H3, H4. }
  split; [exact Hsrc|]. simpl. unfold bind. now rewrite Hsrc.
Qed.

Lemma RefreshMap_unknown_type_witness :
  @RefreshMap Sim.env
    (MCons "pw" (VSource (mkSource "VAULT" "pw" "secret/pw"))
       (MCons "region" (VString "eu-west-1") MNil)) (Sim.configured MNil)
  = (Sim.configured MNil, inr (MCons "region" (VString "eu-west-1") MNil)).
Proof.
  unfold RefreshMap.
  rewrite (proj2 (@RefreshMap_unknown_type Sim.env "pw"
                    (mkSource "VAULT" "pw" "secret/pw")
                    (MCons "region" (VString "eu-west-1") MNil) MNil
                    (Sim.configured MNil) eq_refl)).
  reflexivity.
Defined.

Lemma known_type_true (t : string) :
  known_type t = true ->
  t = "KMS" \/ t = "SSM" \/ t = "SECRETS_MANAGER" \/ t = "FILE".
Proof.
  unfold known_type. simpl. intros Hk.
  repeat (apply orb_true_iff in Hk as [Hk|Hk];
          [apply String.eqb_eq in Hk; auto|]).
  discriminate.
Qed.

Lemma named_set (dst : Map) (k : string) (v : Value) :
  named dst = true ->
  match v with
  | VSource s => String.eqb (Name s) k && known_type (Type_ s)
  | VMap m' => named m'
  | _ => true
  end = true ->
  named (M.set dst k v) = true.
Proof.
  intros Hdst Hv. induction dst as [|key value rest IH]; simpl in *.
  - now rewrite Hv.
  - apply andb_true_iff in Hdst as [Hleaf Hrest].
    destruct (String.eqb key k) eqn:E; simpl.
    + now rewrite Hv, Hrest.
    + now rewrite Hleaf, (IH Hrest).
Qed.

Lemma find_known_type (table : list (string * string)) p e :
  forallb (fun e => known_type (fst e)) table = true ->
  find p table = Some e -> known_type (fst e) = true.
Proof.
  intros Hall Hfind. apply find_some in Hfind as [Hin _].
  rewrite forallb_forall in Hall. now apply Hall.
Qed.

(** With known provider types and no [Source] in the input, what the loop
    of [GenerateFromMap] returns binds each [Source] to its name. *)
Lemma GenerateFromMap_range_named c src :
  known_types c = true ->
  forall dst out,
    no_source src = true -> named dst = true ->
    GenerateFromMap_range c src dst = inr out ->
    named out = true.
Proof.
  intros Hknown. apply andb_true_iff in Hknown as [Hkk Hkv].
  induction src using Map_mut with
    (P := fun v => match v with
                   | VMap m => forall dst out,
                       no_source m = true -> named dst = true ->
                       GenerateFromMap_range c m dst = inr out ->
                       named out = true
                   | _ => True
                   end); try exact I; try assumption.
  - intros dst out _ Hdst Hrun. simpl in Hrun. now inversion Hrun; subst.
  - intros dst out Hsrc Hdst Hrun.
    rewrite GenerateFromMap_range_step in Hrun.
    simpl in Hsrc. apply andb_true_iff in Hsrc as [Hleaf Hrest].
    refine (IHsrc0 _ _ Hrest _ Hrun). apply named_set; [exact Hdst|].
    destruct value; try reflexivity; try discriminate.
    + unfold written_key, written_value.
      destruct (find _ (KeyPrefixes c)) as [e|] eqn:Ek.
      * simpl. rewrite String.eqb_refl. simpl.
        exact (find_known_type _ _ _ Hkk Ek).
      * destruct (find _ (ValuePrefixes c)) as [e|] eqn:Ev; [|reflexivity].
        simpl. rewrite String.eqb_refl. simpl.
        exact (find_known_type _ _ _ Hkv Ev).
    + simpl. unfold GenerateFromMap.
      destruct (GenerateFromMap_range c m MNil) as [err|val] eqn:Eval;
        [reflexivity|].
      exact (IHsrc MNil val Hleaf eq_refl Eval).
Qed.

Lemma mem_In (k : string) (l : list string) :
  M.mem k l = true <-> In k l.
Proof.
  induction l as [|k' l IH]; simpl; [split; [discriminate|tauto]|].
  rewrite orb_true_iff, IH, String.eqb_eq. tauto.
Qed.

Lemma wf_NoDup_keys (m : Map) : M.wf m = true -> NoDup (M.keys m).
Proof.
  induction m as [|key value rest IH]; simpl; [constructor|].
  intros Hwf. apply andb_true_iff in Hwf as [Hwf Hrest].
  apply andb_true_iff in Hwf as [Hkey _]. apply negb_true_iff in Hkey.
  constructor; [|now apply IH].
  intros Hin. apply mem_In in Hin. congruence.
Qed.

Lemma keys_app (m1 m2 : Map) :
  M.keys (M.app m1 m2) = (M.keys m1 ++ M.keys m2)%list.
Proof. induction m1 as [|key value rest IH]; simpl; congruence. Qed.

Lemma keys_set_fresh (dst : Map) (k : string) (v : Value) :
  ~ In k (M.keys dst) -> M.keys (M.set dst k v) = (M.keys dst ++ [k])%list.
Proof.
  intros Hfresh. rewrite set_fresh, keys_app; [reflexivity|].
  destruct (M.mem k (M.keys dst)) eqn:E; [|reflexivity].
  apply mem_In in E. contradiction.
Qed.

Section NamedSources.

Context `{Env}.

Local Open Scope list_scope.

(** A [Source] bound to its name and of a known type is resolved under
    the key of its entry. *)
Lemma RefreshMap_source_named key source dst st st' dst' :
  String.eqb (Name source) key = true ->
  known_type (Type_ source) = true ->
  RefreshMap_source key source dst st = (st', inr dst') ->
  exists v, dst' = M.set dst key v.
Proof.
  intros Hname Hknown. apply String.eqb_eq in Hname.
  unfold RefreshMap_source. rewrite Hname.
  destruct (known_type_true _ Hknown) as [Ht|[Ht|[Ht|Ht]]]; rewrite Ht;
    cbn [String.eqb Ascii.eqb Bool.eqb]; unfold bind, ret;
    repeat match goal with
           | |- context [match ?m st with _ => _ end] =>
               destruct (m st) as [? [?|?]]
           | |- context [match ?m ?s with _ => _ end] =>
               destruct (m s) as [? [?|?]]
           | |- context [if ?b then _ else _] => destruct b
           end;
    intros Heq; inversion Heq; subst; eauto.
Qed.

Lemma RefreshMap_range_keys src :
  forall dst st st' out,
    NoDup (M.keys dst ++ M.keys src) ->
    named src = true ->
    RefreshMap_range src dst st = (st', inr out) ->
    M.keys out = M.keys dst ++ M.keys src.
Proof.
  induction src as [|key value rest IH]; intros dst st st' out Hnd Hn Hrun.
  - simpl in *. inversion Hrun; subst. now rewrite app_nil_r.
  - simpl in Hn. apply andb_true_iff in Hn as [Hleaf Hrest].
    assert (Hfresh : ~ In key (M.keys dst)).
    { simpl in Hnd. apply NoDup_remove_2 in Hnd.
      intros Hin. apply Hnd. apply in_or_app. now left. }
    assert (Hnext : forall v st1,
               RefreshMap_range rest (M.set dst key v) st1 = (st', inr out) ->
               M.keys out = M.keys dst ++ M.keys (MCons key value rest)).
    { intros v st1 Hrun'.
      assert (Hnd' : NoDup (M.keys (M.set dst key v) ++ M.keys rest)).
      { rewrite keys_set_fresh by exact Hfresh.
        simpl in Hnd. now rewrite <- app_assoc. }
      rewrite (IH _ _ _ _ Hnd' Hrest Hrun').
      rewrite keys_set_fresh by exact Hfresh.
      simpl. now rewrite <- app_assoc. }
    destruct value; simpl in Hrun; try (eapply Hnext; exact Hrun).
    + unfold bind in Hrun.
      destruct (RefreshMap_range m MNil st) as [st1 [err|res]];
        [discriminate|]. eapply Hnext; exact Hrun.
    + unfold bind in Hrun.
      destruct (RefreshMap_source key s dst st) as [st1 [err|dst1]] eqn:Es;
        [discriminate|].
      apply andb_true_iff in Hleaf as [Hname Hknown].
      destruct (RefreshMap_source_named _ _ _ _ _ _ Hname Hknown Es)
        as [v ->].
      eapply Hnext; exact Hrun.
Qed.

(** X6: a configuration without [Source] values, as decoded from JSON,
    resolved with prefix tables of known provider types: when the
    resolution succeeds, the resolved map has the keys of the map that
    [GenerateFromMap] returned, in the same order; no entry is lost,
    added or renamed by [RefreshMap]. *)
Theorem resolve_keeps_keys (c : ConfigValues) (src : Map)
    (st st' : State) (out : Map) :
  known_types c = true ->
  no_source src = true ->
  resolve c src st = (st', inr out) ->
  exists static,
    GenerateFromMap c src = inr static
    /\ M.keys out = M.keys static.
Proof.
  intros Hknown Hsrc Hrun. unfold resolve in Hrun.
  destruct (GenerateFromMap c src) as [err|static] eqn:Egen;
    [discriminate|].
  exists static. split; [reflexivity|].
  unfold GenerateFromMap in Egen.
  destruct (GenerateFromMap_range_kept c src MNil static eq_refl eq_refl Egen)
    as [Hwf _].
  pose proof (GenerateFromMap_range_named c src Hknown MNil static Hsrc
                eq_refl Egen) as Hnamed.
  unfold RefreshMap in Hrun.
  now rewrite (RefreshMap_range_keys static MNil st st' out
                 (wf_NoDup_keys _ Hwf) Hnamed Hrun).
Qed.

End NamedSources.

Lemma resolve_keeps_keys_witness :
  exists static,
    GenerateFromMap NewConfigValues
      (MCons "FILE_motd" (VString "/etc/motd")
         (MCons "cfg" (VString "ssm:///app/*") MNil)) = inr static
    /\ ["motd"; "cfg"] = M.keys static.
Proof.
  apply (@resolve_keeps_keys Sim.env NewConfigValues
           (MCons "FILE_motd" (VString "/etc/motd")
              (MCons "cfg" (VString "ssm:///app/*") MNil))
           (Sim.configured MNil)
           (fst (@resolve Sim.env NewConfigValues
                   (MCons "FILE_motd" (VString "/etc/motd")
                      (MCons "cfg" (VString "ssm:///app/*") MNil))
                   (Sim.configured MNil)))
           (MCons "motd" (VString "hello")
              (MCons "cfg" (VStringMap [("user", "admin");
                                        ("password", "hunter2")]) MNil)));
    reflexivity.
Defined.

(** ** One call for each source *)

Section FetchSequence.

Context `{Env}.

Local Open Scope list_scope.

Lemma calls_ret {A} (a : A) : calls (ret a) [].
Proof. intros st. exists []. simpl. now rewrite app_nil_r. Qed.

Lemma calls_bind {A B} (m : M A) (k : A -> M B) l1 l2 :
  calls m l1 -> (forall a, calls (k a) l2) -> calls (bind m k) (l1 ++ l2).
Proof.
  intros Hm Hk st. unfold bind.
  destruct (Hm st) as (delta & Ht & Hf).
  destruct (m st) as [st1 [err|a]]; simpl in *.
  - exists delta. split; [exact Ht|].
    destruct Hf as (pre & s & post & -> & ->).
    exists pre, s, (post ++ l2). split; [|reflexivity].
    now rewrite <- app_assoc.
  - destruct (Hk a st1) as (delta' & Ht' & Hf').
    exists (delta ++ delta'). split; [now rewrite Ht', Ht, app_assoc|].
    subst delta. destruct (error_of (snd (k a st1))) as [e|]; simpl in *.
    + destruct Hf' as (pre & s & post & -> & ->).
      exists (l1 ++ pre), s, post. split; [now rewrite <- app_assoc|].
      now rewrite map_app, <- app_assoc.
    + subst delta'. now rewrite map_app.
Qed.

Lemma calls_fetch {A} (s : Source) secretType
    (call : World -> World * (error + A)) :
  secretType = Type_ s ->
  calls (fetch secretType (Identifier s) call) [s].
Proof.
  intros -> st. unfold fetch. destruct (call (world st)) as [w r]. simpl.
  exists [EvFetch (Type_ s) (Identifier s) (error_of r)].
  split; [reflexivity|]. destruct r as [err|a]; simpl; [|reflexivity].
  now exists [], s, [].
Qed.

Lemma calls_client (m : M unit) :
  (forall st, snd (m st) = inr tt) ->
  (forall st, trace (fst (m st)) = trace st) ->
  calls m [].
Proof.
  intros Hr Ht st. exists []. rewrite Ht, Hr, app_nil_r. now split.
Qed.

Lemma calls_new_SSMClient : calls new_SSMClient [].
Proof.
  apply calls_client; intros st; unfold new_SSMClient;
    now destruct (SSMClient (refresh_state st)).
Qed.

Lemma calls_new_SecretsManagerClient : calls new_SecretsManagerClient [].
Proof.
  apply calls_client; intros st; unfold new_SecretsManagerClient;
    now destruct (SecretsManagerClient (refresh_state st)).
Qed.

Lemma calls_new_KMSClient : calls new_KMSClient [].
Proof.
  apply calls_client; intros st; unfold new_KMSClient;
    now destruct (KMSClient (refresh_state st)).
Qed.

Lemma calls_RefreshMap_source key source dst :
  calls (RefreshMap_source key source dst)
    (if known_type (Type_ source) then [source] else []).
Proof.
  unfold RefreshMap_source.
  destruct (String.eqb (Type_ source) "FILE") eqn:E1;
    [|destruct (String.eqb (Type_ source) "SSM") eqn:E2;
      [|destruct (String.eqb (Type_ source) "SECRETS_MANAGER") eqn:E3;
        [|destruct (String.eqb (Type_ source) "KMS") eqn:E4]]].
  - apply String.eqb_eq in E1.
    replace (known_type (Type_ source)) with true by now rewrite E1.
    apply (calls_bind _ _ [source] []);
      [now apply calls_fetch|intros; apply calls_ret].
  - apply String.eqb_eq in E2.
    replace (known_type (Type_ source)) with true by now rewrite E2.
    apply (calls_bind _ _ [] [source]); [apply calls_new_SSMClient|].
    intros _. destruct (strings.HasSuffix (Identifier source) "/*");
      apply (calls_bind _ _ [source] []);
      try (now apply calls_fetch); intros; apply calls_ret.
  - apply String.eqb_eq in E3.
    replace (known_type (Type_ source)) with true by now rewrite E3.
    apply (calls_bind _ _ [] [source]);
      [apply calls_new_SecretsManagerClient|].
    intros _. apply (calls_bind _ _ [source] []);
      [now apply calls_fetch|intros; apply calls_ret].
  - apply String.eqb_eq in E4.
    replace (known_type (Type_ source)) with true by now rewrite E4.
    apply (calls_bind _ _ [] [source]); [apply calls_new_KMSClient|].
    intros _. apply (calls_bind _ _ [source] []);
      [now apply calls_fetch|intros; apply calls_ret].
  - unfold known_type. simpl. rewrite E1, E2, E3, E4. simpl.
    apply calls_ret.
Qed.

Lemma calls_RefreshMap_range src :
  forall dst, calls (RefreshMap_range src dst) (sources_of src).
Proof.
  induction src using Map_mut with
    (P := fun v => match v with
                   | VMap m => forall dst,
                       calls (RefreshMap_range m dst) (sources_of m)
                   | _ => True
                   end); try exact I; try assumption.
  - intros dst. apply calls_ret.
  - intros dst. destruct value; simpl; try apply IHsrc0.
    + apply calls_bind; [apply IHsrc|]. intros res. apply IHsrc0.
    + apply calls_bind; [apply calls_RefreshMap_source|].
      intros dst'. apply IHsrc0.
Qed.

(** X7: [RefreshMap] calls a provider once for each [Source] of known
    type, in the order in which it visits the map, and stops at the first
    call that fails.  A [Refresh] that returns nil has made one successful
    call for each [Source] of [Static], and no other. *)
Theorem RefreshMap_one_call_per_source (st : State) :
  (forall src,
      fetch_sequence (sources_of src)
        (error_of (snd (RefreshMap src st)))
        (new_events st (fst (RefreshMap src st))))
  /\ (snd (Refresh st) = None ->
      new_events st (fst (Refresh st))
      = map fetched (sources_of (Static (self st))) ++ [EvRefresh None]).
Proof.
  split.
  - intros src. unfold RefreshMap.
    destruct (calls_RefreshMap_range src MNil st) as (delta & Ht & Hf).
    now rewrite (new_events_app _ _ _ Ht).
  - unfold Refresh.
    set (st0 := set_refresh_state st
                  (mkRefreshState false false false false)).
    change (Static (self st0)) with (Static (self st)).
    destruct (calls_RefreshMap_range (Static (self st)) MNil st0)
      as (delta & Ht & Hf).
    unfold RefreshMap.
    destruct (RefreshMap_range (Static (self st)) MNil st0)
      as [st1 [err|env]]; simpl in *; [discriminate|].
    destruct (json_Marshal env) as [err|data]; simpl; [discriminate|].
    destruct (json_Unmarshal data (output st1)) as [o err]; simpl.
    intros ->. apply new_events_app. simpl.
    now rewrite Ht, Hf, app_assoc.
Qed.

End FetchSequence.

Lemma RefreshMap_one_call_per_source_witness :
  let st := Sim.configured (MCons "FILE_motd" (VString "/etc/motd") MNil) in
  new_events st (fst (@Refresh Sim.env st))
  = [EvFetch "FILE" "/etc/motd" None; EvRefresh None].
Proof.
  intros st.
  apply (proj2 (@RefreshMap_one_call_per_source Sim.env st)).
  reflexivity.
Defined.

(** ** The time spent sleeping *)

Section TimeSlept.

Context `{Env}.

Local Open Scope list_scope.

Lemma time_slept_schedule errs :
  forall j,
    (j + length errs <= 32)%nat ->
    time_slept (schedule errs (2 ^ Z.of_nat (j + 1)))
    = ((2 ^ Z.of_nat (j + length errs + 2) - 2 ^ Z.of_nat (j + 2))
       * Second)%Z.
Proof.
  unfold time_slept.
  induction errs as [|e errs IH]; intros j Hj; simpl.
  - replace (j + 0 + 2)%nat with (j + 2)%nat by lia. lia.
  - simpl in Hj.
    assert (Hw : wrap64 (2 ^ Z.of_nat (j + 1) * 2) = (2 ^ Z.of_nat (j + 2))%Z).
    { replace (Z.of_nat (j + 2)) with (Z.of_nat (j + 1) + 1)%Z by lia.
      rewrite Z.pow_add_r, Z.pow_1_r by lia.
      apply wrap64_small.
      pose proof (pow2_bounds (j + 1) ltac:(lia)). lia. }
    rewrite Hw.
    replace (j + 2)%nat with (S j + 1)%nat at 2 by lia.
    rewrite (IH (S j)) by lia.
    rewrite wrap64_small.
    + replace (S j + length errs + 2)%nat with (j + S (length errs) + 2)%nat
        by lia.
      replace (Z.of_nat (S j + 2)) with (Z.of_nat (j + 2) + 1)%Z by lia.
      rewrite Z.pow_add_r, Z.pow_1_r by lia. lia.
    + pose proof (pow2_bounds (j + 2) ltac:(lia)). unfold Second. lia.
Qed.

(** X8: the time [RefreshWithRetries] spends sleeping.  After [n] failed
    attempts, [n] at most 32, it has slept [2^(n+2) - 4] seconds in all;
    when it returns the error, [n] is [MaxRetries], which makes 124
    seconds with the default of 5.  With a [MaxRetries] that is not
    positive it returns the error at once: no attempt, no sleep. *)
Theorem RefreshWithRetries_time_slept (st : State) :
  let res := RefreshWithRetries st in
  let delta := new_events st (fst res) in
  let n := length (sleeps delta) in
  ((n <= 32)%nat ->
   time_slept delta = ((2 ^ Z.of_nat (n + 2) - 4) * Second)%Z)
  /\ (snd res <> None -> n = Z.to_nat (MaxRetries (self st)))
  /\ ((MaxRetries (self st) <= 0)%Z ->
      res = (st, Some "Failed to refresh config")).
Proof.
  intros res delta n. subst res delta n. unfold RefreshWithRetries.
  destruct (RefreshWithRetries_loop_spec
              (Z.to_nat (MaxRetries (self st))) 2 st)
    as (_ & delta & errs & Ht & Hc & _ & Hfail).
  rewrite (new_events_app _ _ _ Ht).
  assert (Hs : sleeps delta = sleeps (schedule errs 2)).
  { rewrite <- sleeps_control, Hc, sleeps_app.
    destruct (snd (RefreshWithRetries_loop _ 2 st)); simpl;
      now rewrite app_nil_r. }
  split; [|split].
  - unfold time_slept at 1. rewrite Hs, sleeps_schedule_length.
    intros Hn. change 2%Z with (2 ^ Z.of_nat (0 + 1))%Z at 1.
    exact (time_slept_schedule errs 0 Hn).
  - rewrite Hs, sleeps_schedule_length. intros Herr.
    destruct (snd (RefreshWithRetries_loop _ 2 st)) as [e|] eqn:E;
      [|contradiction].
    now destruct (Hfail e eq_refl).
  - intros Hneg. replace (Z.to_nat (MaxRetries (self st))) with 0%nat by lia.
    reflexivity.
Qed.

End TimeSlept.

Lemma RefreshWithRetries_time_slept_witness :
  let st := Sim.configured Sim.missing_file in
  time_slept (new_events st (fst (@RefreshWithRetries Sim.env st)))
  = (124 * Second)%Z.
Proof.
  intros st.
  apply (proj1 (@RefreshWithRetries_time_slept Sim.env st)).
  vm_compute. lia.
Defined.

(** ** The receiver between operations *)

Lemma GenerateFromMap_range_ext c1 c2 src :
  KeyPrefixes c1 = KeyPrefixes c2 ->
  ValuePrefixes c1 = ValuePrefixes c2 ->
  forall dst,
    GenerateFromMap_range c1 src dst = GenerateFromMap_range c2 src dst.
Proof.
  intros Hk Hv.
  induction src using Map_mut with
    (P := fun v => match v with
                   | VMap m => forall dst,
                       GenerateFromMap_range c1 m dst
                       = GenerateFromMap_range c2 m dst
                   | _ => True
                   end); try exact I; try assumption.
  - reflexivity.
  - intros dst. destruct value; simpl; try apply IHsrc0.
    + unfold GenerateFromMap_string. rewrite Hk, Hv. apply IHsrc0.
    + rewrite (IHsrc MNil).
      destruct (GenerateFromMap_range c2 m MNil); [reflexivity|].
      apply IHsrc0.
Qed.

Lemma SetFromMap_self `{Env} (st : State) (m out : Map) :
  GenerateFromMap (self st) m = inr out ->
  self (fst (SetFromMap m st))
  = {| Sources := Sources (self st); Static := out;
       MaxRetries := MaxRetries (self st);
       KeyPrefixes := KeyPrefixes (self st);
       ValuePrefixes := ValuePrefixes (self st) |}.
Proof. intros Hgen. unfold SetFromMap. now rewrite Hgen. Qed.

(** X9: [SetFromMap] replaces [Static] and does not merge: what an
    earlier [SetFromMap] or [Clear] left in the receiver has no effect on
    the map it installs, which depends on the two prefix tables and on the
    argument only. *)
Theorem SetFromMap_replaces `{Env} (st : State) (m1 m2 : Map) :
  self (fst (SetFromMap m2 (fst (SetFromMap m1 st))))
  = self (fst (SetFromMap m2 st))
  /\ Static (self (fst (SetFromMap m2 (Clear st))))
     = Static (self (fst (SetFromMap m2 st)))
  /\ (forall c,
        KeyPrefixes c = KeyPrefixes (self st) ->
        ValuePrefixes c = ValuePrefixes (self st) ->
        GenerateFromMap c m2
        = inr (Static (self (fst (SetFromMap m2 st))))).
Proof.
  destruct (GenerateFromMap_range_total (self st) m1 MNil) as [out1 H1].
  destruct (GenerateFromMap_range_total (self st) m2 MNil) as [out2 H2].
  fold (GenerateFromMap (self st) m1) in H1.
  fold (GenerateFromMap (self st) m2) in H2.
  assert (Hgen : forall c,
             KeyPrefixes c = KeyPrefixes (self st) ->
             ValuePrefixes c = ValuePrefixes (self st) ->
             GenerateFromMap c m2 = inr out2).
  { intros c Hk Hv. unfold GenerateFromMap.
    rewrite (GenerateFromMap_range_ext c (self st) m2 Hk Hv). exact H2. }
  rewrite (SetFromMap_self st m2 out2 H2).
  split; [|split].
  - rewrite (SetFromMap_self _ m2 out2);
      rewrite (SetFromMap_self st m1 out1 H1); [reflexivity|].
    now apply Hgen.
  - rewrite (SetFromMap_self (Clear st) m2 out2); [reflexivity|].
    now apply Hgen.
  - exact Hgen.
Qed.

Lemma SetFromMap_replaces_witness :
  Static (self (fst (@SetFromMap Sim.env Sim.plain
                       (Sim.configured Sim.throttled))))
  = Sim.plain.
Proof.
  assert (Hgen : GenerateFromMap NewConfigValues Sim.plain
                 = inr (Static (self (fst (@SetFromMap Sim.env Sim.plain
                                            (Sim.configured Sim.throttled))))))
    by (apply (@SetFromMap_replaces Sim.env (Sim.configured Sim.throttled)
                 MNil Sim.plain); reflexivity).
  vm_compute in Hgen. vm_compute. now inversion Hgen.
Defined.

(** ** ConvertMap *)

Lemma SM_get_set (m : list (string * string)) (k k' v : string) :
  SM.get (SM.set m k v) k' = if String.eqb k k' then Some v else SM.get m k'.
Proof.
  induction m as [|[key value] m IH]; simpl.
  - reflexivity.
  - destruct (String.eqb key k) eqn:E; simpl.
    + apply String.eqb_eq in E. subst key.
      now destruct (String.eqb k k').
    + rewrite IH. destruct (String.eqb k k') eqn:E'; [|reflexivity].
      apply String.eqb_eq in E'. subst k'. now rewrite E.
Qed.

Section ConvertMapFacts.

Variable ToUpper : string -> string.

Local Open Scope list_scope.

Lemma ConvertMap_range_get (prefix : string) (source : list (string * string)) :
  forall res k,
    SM.get (ConvertMap_range ToUpper source res prefix) k
    = match find (fun e => String.eqb (ConvertMap_key ToUpper prefix (fst e)) k)
              (rev source) with
      | Some e => Some (snd e)
      | None => SM.get res k
      end.
Proof.
  induction source as [|[key value] source IH]; intros res k; simpl;
    [reflexivity|].
  rewrite IH, find_append.
  destruct (find _ (rev source)) as [e|]; [reflexivity|].
  simpl. rewrite SM_get_set. unfold ConvertMap_key.
  now destruct (String.eqb _ k).
Qed.

(** X10: [ConvertMap] binds nothing but the values of [source], each
    under the upper-cased key, with [prefix] and an underscore in front
    when [prefix] is not empty.  When no two keys of [source] become the
    same key, every value of [source] is found under its new key. *)
Theorem ConvertMap_lookup (source : list (string * string))
    (prefix : string) :
  (forall k v,
      SM.get (ConvertMap ToUpper source prefix) k = Some v ->
      exists key,
        In (key, v) source
        /\ k = (if String.eqb prefix "" then ToUpper key
                else (prefix ++ "_" ++ ToUpper key)%string))
  /\ (NoDup (map (fun e => ConvertMap_key ToUpper prefix (fst e)) source) ->
      forall key value,
        In (key, value) source ->
        SM.get (ConvertMap ToUpper source prefix)
          (ConvertMap_key ToUpper prefix key) = Some value).
Proof.
  split.
  - intros k v Hget. unfold ConvertMap in Hget.
    rewrite ConvertMap_range_get in Hget.
    destruct (find _ (rev source)) as [[key value]|] eqn:E;
      [|discriminate].
    apply find_some in E as [Hin Hk]. simpl in *.
    inversion Hget; subst. exists key. split.
    + now apply in_rev.
    + apply String.eqb_eq in Hk. now rewrite <- Hk.
  - intros Hnd key value Hin. unfold ConvertMap.
    rewrite ConvertMap_range_get.
    destruct (find _ (rev source)) as [e|] eqn:E.
    + apply find_some in E as [Hin' Hk]. apply String.eqb_eq in Hk.
      apply in_rev in Hin'.
      assert (He : e = (key, value)).
      { apply (NoDup_map_inj
                 (fun e => ConvertMap_key ToUpper prefix (fst e)) source);
          auto. }
      now subst e.
    + apply in_rev in Hin.
      pose proof (find_none _ _ E _ Hin) as Hne. simpl in Hne.
      now rewrite String.eqb_refl in Hne.
Qed.

End ConvertMapFacts.

Lemma ConvertMap_lookup_witness :
  SM.get (ConvertMap ToUpper_ascii [("user", "admin"); ("password", "hunter2")]
            "db")
    "db_PASSWORD" = Some "hunter2".
Proof.
  apply (proj2 (ConvertMap_lookup ToUpper_ascii
                  [("user", "admin"); ("password", "hunter2")] "db")
           ltac:(repeat constructor; simpl; intuition discriminate)
           "password" "hunter2").
  simpl. auto.
Defined.

Lemma GenerateFromMap_last_writer_witness :
  M.get (MCons "db" (VString "x") MNil) "db"
  = option_map (fun e => written_value NewConfigValues (fst e) (snd e))
      (find (writes NewConfigValues "db")
         (rev (entries (MCons "KMS_db" (VString "AQICAHh")
                          (MCons "db" (VString "x") MNil))))).
Proof.
  apply (GenerateFromMap_last_writer NewConfigValues
           (MCons "KMS_db" (VString "AQICAHh")
              (MCons "db" (VString "x") MNil))).
  reflexivity.
Defined.

(** ** aws-dump *)

Lemma Split_parts_no_sep (sep : ascii) (s : string) :
  forall part, In part (strings.Split s sep) -> no_sep sep part = true.
Proof.
  induction s as [|a s IH]; simpl; intros part Hin.
  - destruct Hin as [<-|[]]. reflexivity.
  - destruct (Ascii.eqb a sep) eqn:E.
    + destruct Hin as [<-|Hin]; [reflexivity|now apply IH].
    + destruct (strings.Split s sep) as [|p ps] eqn:Es.
      * destruct Hin as [<-|[]]. simpl. now rewrite E.
      * destruct Hin as [<-|Hin].
        -- simpl. rewrite E. simpl. apply IH. now left.
        -- apply IH. now right.
Qed.

Lemma Split_append (sep : ascii) (a b : string) :
  no_sep sep a = true ->
  strings.Split (a ++ String sep b) sep = a :: strings.Split b sep.
Proof.
  induction a as [|c a IH]; simpl; intros Ha.
  - now rewrite Ascii.eqb_refl.
  - apply andb_true_iff in Ha as [Hc Ha]. apply negb_true_iff in Hc.
    now rewrite Hc, (IH Ha).
Qed.

(** A string is its pieces with the separator between them. *)
Lemma Split_Join (sep : ascii) (s : string) :
  strings_Join (strings.Split s sep) sep = s.
Proof.
  induction s as [|c s IH]; simpl; [reflexivity|].
  pose proof (Split_not_nil sep s) as Hne.
  destruct (Ascii.eqb c sep) eqn:E.
  - apply Ascii.eqb_eq in E. subst c.
    destruct (strings.Split s sep) as [|p ps]; [contradiction|].
    cbn [strings_Join] in *. now rewrite IH.
  - destruct (strings.Split s sep) as [|p ps]; [contradiction|].
    cbn [strings_Join] in *. destruct ps; simpl; now rewrite <- IH.
Qed.

Lemma Split_two (sep : ascii) (s a b : string) :
  strings.Split s sep = [a; b] -> s = a ++ String sep b.
Proof.
  intros Hs. rewrite <- (Split_Join sep s), Hs. reflexivity.
Qed.

Lemma services_no_sep (service : string) :
  In service AwsDump.services -> no_sep ":" service = true.
Proof.
  unfold AwsDump.services. simpl.
  intros Hin. repeat (destruct Hin as [<-|Hin]; [reflexivity|]).
  contradiction.
Qed.

(** X11: a [--report] argument of aws-dump is accepted exactly when it is
    [service:resource] with one of the eight known services and no other
    colon; the two parts are then what [main] uses. *)
Theorem parse_report_accepts (name service resource : string) :
  AwsDump.parse_report name = inr (service, resource)
  <-> name = (service ++ ":" ++ resource)%string
      /\ In service AwsDump.services
      /\ no_sep ":" resource = true.
Proof.
  unfold AwsDump.parse_report. split.
  - destruct (strings.Split name ":") as [|a [|b [|c parts]]] eqn:Es;
      cbn [length Nat.eqb negb nth]; try discriminate.
    destruct (existsb (String.eqb a) AwsDump.services) eqn:Ex;
      [|discriminate].
    intros Heq. inversion Heq; subst. split; [|split].
    + now apply Split_two.
    + apply existsb_exists in Ex as (x & Hin & Hx).
      apply String.eqb_eq in Hx. now subst.
    + apply (Split_parts_no_sep ":" name). rewrite Es. simpl. auto.
  - intros (-> & Hin & Hres).
    change (service ++ ":" ++ resource)%string
      with (service ++ String ":" resource)%string.
    rewrite (Split_append ":" service resource (services_no_sep _ Hin)).
    rewrite (Split_no_sep ":" resource Hres).
    cbn [length Nat.eqb negb nth].
    replace (existsb (String.eqb service) AwsDump.services) with true;
      [reflexivity|].
    symmetry. apply existsb_exists. exists service.
    split; [exact Hin|apply String.eqb_refl].
Qed.

Section ReportFacts.

Variable Resource : Type.
Variable UniqueID : Resource -> string.
Variable with_ManagedBy : Resource -> list (string * string) -> Resource.

Local Open Scope list_scope.

Lemma report_range_unmanaged managed resources :
  forall report,
    AwsDump.report_range Resource UniqueID with_ManagedBy managed true
      resources report
    = report
      ++ filter (fun r => match SM.get managed (UniqueID r) with
                          | Some _ => false
                          | None => true
                          end) resources.
Proof.
  induction resources as [|r resources IH]; intros report; simpl.
  - now rewrite app_nil_r.
  - destruct (SM.get managed (UniqueID r)); rewrite IH; [reflexivity|].
    now rewrite <- app_assoc.
Qed.

Lemma report_range_all managed resources :
  forall report,
    AwsDump.report_range Resource UniqueID with_ManagedBy managed false
      resources report
    = report
      ++ map (fun r => match SM.get managed (UniqueID r) with
                       | Some s3Path =>
                           with_ManagedBy r
                             [("type", "terraform"); ("state", s3Path)]
                       | None => r
                       end) resources.
Proof.
  induction resources as [|r resources IH]; intros report; simpl.
  - now rewrite app_nil_r.
  - destruct (SM.get managed (UniqueID r)); rewrite IH;
      now rewrite <- app_assoc.
Qed.

(** X12: the report of aws-dump.  With [--only-unmanaged] it is the
    resources whose unique id is not in the terraform state, in order and
    as they are.  Without it, it is every resource, in order, those in the
    state marked as managed by terraform with the path of their state.
    Without terraform backends it is the resources as they are. *)
Theorem build_report_spec (managed : list (string * string))
    (onlyUnmanaged : bool) (resources : list Resource) :
  AwsDump.build_report Resource UniqueID with_ManagedBy (Some managed) true
    resources
  = filter (fun r => match SM.get managed (UniqueID r) with
                     | Some _ => false
                     | None => true
                     end) resources
  /\ AwsDump.build_report Resource UniqueID with_ManagedBy (Some managed)
       false resources
     = map (fun r => match SM.get managed (UniqueID r) with
                     | Some s3Path =>
                         with_ManagedBy r
                           [("type", "terraform"); ("state", s3Path)]
                     | None => r
                     end) resources
  /\ AwsDump.build_report Resource UniqueID with_ManagedBy None onlyUnmanaged
       resources = resources.
Proof.
  unfold AwsDump.build_report.
  rewrite report_range_unmanaged, report_range_all. now repeat split.
Qed.

End ReportFacts.

(** ** ecs-deploy *)

Section EcsDeployFacts.

Context `{EcsDeploy.Ecs}.

Local Open Scope list_scope.

Lemma updates_app t1 t2 : updates (t1 ++ t2) = updates t1 ++ updates t2.
Proof.
  induction t1 as [|e t1 IH]; simpl; [reflexivity|].
  destruct e; simpl; congruence.
Qed.

Lemma update_services_spec services :
  forall pending w t,
    let res := EcsDeploy.update_services services pending w t in
    exists results,
      snd (fst res) = t ++ map (fun r => EcsDeploy.EvUpdateService (fst r) (snd r))
                             (combine services results)
      /\ length results = length services
      /\ snd res
         = pending
           + length (filter (fun r => match r with None => true | _ => false end)
                       results).
Proof.
  induction services as [|service services IH]; intros pending w t; simpl.
  - exists []. simpl. now rewrite app_nil_r.
  - destruct (EcsDeploy.ecs_UpdateService service w) as [w' [err|]].
    + destruct (IH pending w' (t ++ [EcsDeploy.EvUpdateService service (Some err)]))
        as (results & Ht & Hl & Hp).
      exists (Some err :: results). simpl.
      rewrite Ht, <- app_assoc. simpl. repeat split; auto.
    + destruct (IH (S pending) w' (t ++ [EcsDeploy.EvUpdateService service None]))
        as (results & Ht & Hl & Hp).
      exists (None :: results). simpl.
      rewrite Ht, <- app_assoc. simpl. repeat split; auto. lia.
Qed.

Lemma wait_zero fuel names start timeout w t :
  EcsDeploy.wait fuel names start timeout 0 w t = (w, t, EcsDeploy.Done).
Proof. now destruct fuel. Qed.

Lemma polls_app t1 t2 : polls (t1 ++ t2) = polls t1 + polls t2.
Proof.
  induction t1 as [|e t1 IH]; simpl; [reflexivity|].
  destruct e; simpl; congruence.
Qed.

(** The loop that waits adds no [UpdateService] call, and no more
    [DescribeServices] calls than its fuel. *)
Lemma wait_events fuel names start timeout :
  forall pending w t,
    let res := EcsDeploy.wait fuel names start timeout pending w t in
    updates (snd (fst res)) = updates t
    /\ polls (snd (fst res)) <= polls t + fuel.
Proof.
  induction fuel as [|fuel IH]; intros pending w t; simpl.
  - destruct (pending =? 0)%nat; simpl; split; auto; lia.
  - destruct (pending =? 0)%nat; simpl; [split; auto; lia|].
    destruct (EcsDeploy.ecs_DescribeServices names w) as [w1 [err|result]];
      simpl.
    + rewrite updates_app, polls_app. simpl. rewrite app_nil_r.
      split; [reflexivity|lia].
    + destruct (EcsDeploy.count_pending result 0) as [pending'|]; simpl.
      * destruct (pending' =? 0)%nat eqn:E; simpl.
        -- apply Nat.eqb_eq in E. subst pending'. rewrite wait_zero. simpl.
           rewrite updates_app, polls_app. simpl. rewrite app_nil_r.
           split; [reflexivity|lia].
        -- destruct (timeout <=? EcsDeploy.now w1 - start)%Z; simpl.
           ++ rewrite updates_app, polls_app. simpl. rewrite app_nil_r.
              split; [reflexivity|lia].
           ++ match goal with
              | |- context [EcsDeploy.wait fuel names start timeout pending'
                              ?w2 ?t2] =>
                  destruct (IH pending' w2 t2) as [Hu Hp]
              end.
              rewrite Hu. split.
              ** destruct (negb (pending =? pending')%nat);
                   rewrite !updates_app; simpl; now rewrite !app_nil_r.
              ** etransitivity; [exact Hp|].
                 destruct (negb (pending =? pending')%nat);
                   rewrite !polls_app; simpl; lia.
      * rewrite updates_app, polls_app. simpl. rewrite app_nil_r.
        split; [reflexivity|lia].
Qed.

(** X13: ecs-deploy calls [UpdateService] once for each service, in the
    order given, whether or not earlier calls failed.  When every call
    fails it does not wait: it makes no [DescribeServices] call and
    returns as after a successful deployment. *)
Theorem deploy_updates (fuel : nat) (services : list string) (timeout : Z)
    (w : EcsDeploy.World) :
  let res := EcsDeploy.deploy fuel services timeout w in
  map fst (updates (snd (fst res))) = services
  /\ (Forall (fun r => snd r <> None) (updates (snd (fst res))) ->
      snd res = EcsDeploy.Done /\ polls (snd (fst res)) = 0).
Proof.
  intros res. subst res. unfold EcsDeploy.deploy.
  destruct (update_services_spec services 0 w []) as (results & Ht & Hl & Hp).
  destruct (EcsDeploy.update_services services 0 w []) as [[w1 t1] pending].
  simpl in Ht, Hp.
  destruct (wait_events fuel services (EcsDeploy.now w1) timeout pending w1 t1)
    as [Hu _].
  assert (Hup : updates t1 = combine services results).
  { rewrite Ht. clear - Hl. revert results Hl.
    induction services as [|s services IH]; intros [|r results] Hl;
      simpl in *; try discriminate; try reflexivity.
    f_equal. apply IH. lia. }
  rewrite Hu, Hup. split.
  - clear - Hl. revert results Hl.
    induction services as [|s services IH]; intros [|r results] Hl;
      simpl in *; try discriminate; try reflexivity.
    f_equal. apply IH. lia.
  - intros Hfail.
    assert (Hzero : pending = 0).
    { rewrite Hp. simpl. clear - Hl Hfail. revert results Hl Hfail.
      induction services as [|s services IH]; intros [|r results] Hl Hfail;
        simpl in *; try discriminate; try reflexivity.
      inversion Hfail as [|x l Hr Hrest]; subst. simpl in Hr.
      destruct r; [|contradiction]. apply IH; [lia|exact Hrest]. }
    subst pending. rewrite Hzero, wait_zero. simpl. split; [reflexivity|].
    rewrite Ht. simpl. clear. generalize (combine services results).
    intros l. induction l as [|r l IH]; simpl; auto.
Qed.

End EcsDeployFacts.

Section EcsDeployClock.

Context `{EcsDeploy.Ecs}.

(** The clock does not go back during a call, and a sleep lasts at least
    as long as asked. *)
Hypothesis now_DescribeServices :
  forall names w,
    (EcsDeploy.now w
     <= EcsDeploy.now (fst (EcsDeploy.ecs_DescribeServices names w)))%Z.
Hypothesis now_Sleep :
  forall d w, (EcsDeploy.now w + d <= EcsDeploy.now (EcsDeploy.time_Sleep d w))%Z.

Local Open Scope list_scope.

(** With [fuel] times around for what is left of the timeout, the loop
    ends, and more fuel changes nothing. *)
Lemma wait_enough names start timeout fuel :
  forall pending w t,
    (timeout - (EcsDeploy.now w - start) <= (Z.of_nat fuel - 1) * Second)%Z ->
    (1 <= fuel)%nat ->
    snd (EcsDeploy.wait fuel names start timeout pending w t)
    <> EcsDeploy.OutOfFuel
    /\ forall extra,
        EcsDeploy.wait (fuel + extra) names start timeout pending w t
        = EcsDeploy.wait fuel names start timeout pending w t.
Proof.
  induction fuel as [|fuel IH]; intros pending w t Hleft Hfuel; [lia|].
  assert (Hleft' : (timeout - (EcsDeploy.now w - start)
                    <= Z.of_nat fuel * Second)%Z) by lia.
  clear Hleft Hfuel.
  simpl. destruct (pending =? 0)%nat; [split; [discriminate|reflexivity]|].
  pose proof (now_DescribeServices names w) as Hclock.
  destruct (EcsDeploy.ecs_DescribeServices names w) as [w1 [err|result]];
    simpl in *; [split; [discriminate|reflexivity]|].
  destruct (EcsDeploy.count_pending result 0) as [pending'|];
    [|split; [discriminate|reflexivity]].
  destruct (pending' =? 0)%nat eqn:E; simpl.
  - apply Nat.eqb_eq in E. subst pending'. rewrite wait_zero.
    split; [discriminate|]. intros extra. now rewrite wait_zero.
  - destruct (timeout <=? EcsDeploy.now w1 - start)%Z eqn:Et;
      [split; [discriminate|reflexivity]|].
    apply Z.leb_gt in Et.
    pose proof (now_Sleep Second w1) as Hsleep.
    apply IH.
    + unfold Second in *. lia.
    + unfold Second in *. lia.
Qed.

(** X14: ecs-deploy stops waiting.  On a clock that does not go back and
    with sleeps that last as long as asked, the loop that waits for the
    services ends after at most [timeout / 1s + 2] calls of
    [DescribeServices]: it returns, or it exits on an error, on the
    timeout or on a service without deployment. *)
Theorem deploy_terminates (services : list string) (timeout : Z)
    (w : EcsDeploy.World) :
  let fuel := (Z.to_nat (timeout / Second) + 2)%nat in
  let res := EcsDeploy.deploy fuel services timeout w in
  snd res <> EcsDeploy.OutOfFuel
  /\ polls (snd (fst res)) <= fuel
  /\ forall extra,
      EcsDeploy.deploy (fuel + extra) services timeout w = res.
Proof.
  intros fuel res. subst res. unfold EcsDeploy.deploy.
  destruct (update_services_spec services 0 w []) as (results & Ht & _ & _).
  destruct (EcsDeploy.update_services services 0 w []) as [[w1 t1] pending].
  simpl in Ht.
  assert (Hleft : (timeout - (EcsDeploy.now w1 - EcsDeploy.now w1)
                   <= (Z.of_nat fuel - 1) * Second)%Z).
  { subst fuel. unfold Second.
    destruct (Z.le_gt_cases 0 timeout) as [Hpos|Hneg].
    - pose proof (Z.mod_pos_bound timeout 1000000000 ltac:(lia)).
      pose proof (Z.div_mod timeout 1000000000 ltac:(lia)).
      assert (0 <= timeout / 1000000000)%Z by (apply Z.div_pos; lia).
      lia.
    - lia. }
  destruct (wait_enough services (EcsDeploy.now w1) timeout fuel pending w1 t1
              Hleft ltac:(subst fuel; lia)) as [Hend Hextra].
  split; [exact Hend|]. split; [|exact Hextra].
  destruct (wait_events fuel services (EcsDeploy.now w1) timeout pending w1 t1)
    as [_ Hp].
  etransitivity; [exact Hp|].
  rewrite Ht. simpl. clear.
  assert (Hz : polls (map (fun r => EcsDeploy.EvUpdateService (fst r) (snd r))
                        (combine services results)) = 0).
  { generalize (combine services results). intros l.
    induction l as [|r l IH]; simpl; auto. }
  rewrite Hz. lia.
Qed.

End EcsDeployClock.

Section ImagesFacts.

Variable Rest : Type.

Local Open Scope list_scope.



End ImagesFacts.

Lemma deploy_terminates_witness :
  snd (@EcsDeploy.deploy sim_ecs
         (Z.to_nat (3 * Second / Second) + 2) ["web"; "broken"]
         (3 * Second)%Z (0%Z, 0%nat))
  <> EcsDeploy.OutOfFuel.
Proof.
  apply (@deploy_terminates sim_ecs).
  - intros names w. simpl. lia.
  - intros d w. simpl. lia.
Defined.

Lemma deploy_updates_witness :
  snd (@EcsDeploy.deploy sim_ecs 0 ["broken"] (3 * Second)%Z (0%Z, 0%nat))
  = EcsDeploy.Done.
Proof.
  apply (@deploy_updates sim_ecs 0 ["broken"] (3 * Second)%Z (0%Z, 0%nat)).
  repeat constructor. discriminate.
Defined.

(** ** Sessions *)

Section SessionFacts.

Variable os_Getenv : string -> string.
Variable strings_TrimSpace : string -> string.

Lemma check_keys_Some keys :
  (exists message, Session.check_keys os_Getenv strings_TrimSpace keys
                   = Some message)
  <-> exists key,
      In key keys
      /\ os_Getenv key <> ""
      /\ strings_TrimSpace (os_Getenv key) <> os_Getenv key.
Proof.
  induction keys as [|key keys IH]; simpl.
  - split; [intros [m Hm]; discriminate|intros (k & [] & _)].
  - destruct (String.eqb (os_Getenv key) "") eqn:E1; simpl.
    + apply String.eqb_eq in E1. rewrite IH. split.
      * intros (k & Hin & Hk). exists k. auto.
      * intros (k & [<-|Hin] & Hne & Ht); [contradiction|eauto].
    + apply String.eqb_neq in E1.
      destruct (String.eqb (strings_TrimSpace (os_Getenv key)) (os_Getenv key))
        eqn:E2; simpl.
      * apply String.eqb_eq in E2. rewrite IH. split.
        -- intros (k & Hin & Hk). exists k. auto.
        -- intros (k & [<-|Hin] & Hne & Ht); [contradiction|eauto].
      * apply String.eqb_neq in E2. split; [|eauto].
        intros _. exists key. auto.
Qed.

(** X16: the region of [NewConfig] is never empty: it is the argument
    when that is not empty, else [AWS_REGION] when that is not empty, else
    eu-west-1.  [NewConfig] exits, whatever the region, exactly when
    [AWS_ACCESS_KEY_ID] or [AWS_SECRET_ACCESS_KEY] is set to a value that
    [strings.TrimSpace] changes. *)
Theorem NewConfig_region (region : string) :
  (forall conf,
      Session.NewConfig os_Getenv strings_TrimSpace region
      = Session.Return conf ->
      Session.Region conf <> ""
      /\ (region <> "" -> Session.Region conf = region)
      /\ (region = "" -> os_Getenv "AWS_REGION" <> "" ->
          Session.Region conf = os_Getenv "AWS_REGION")
      /\ (region = "" -> os_Getenv "AWS_REGION" = "" ->
          Session.Region conf = "eu-west-1"))
  /\ ((exists message,
         Session.NewConfig os_Getenv strings_TrimSpace region
         = Session.Fatal message)
      <-> exists key,
          In key ["AWS_ACCESS_KEY_ID"; "AWS_SECRET_ACCESS_KEY"]
          /\ os_Getenv key <> ""
          /\ strings_TrimSpace (os_Getenv key) <> os_Getenv key).
Proof.
  unfold Session.NewConfig. split.
  - intros conf.
    destruct (Session.check_keys _ _ _) as [message|]; [discriminate|].
    intros Heq. inversion Heq; subst; clear Heq. simpl.
    destruct (String.eqb region "") eqn:E1.
    + apply String.eqb_eq in E1. subst region.
      destruct (String.eqb (os_Getenv "AWS_REGION") "") eqn:E2.
      * apply String.eqb_eq in E2. repeat split; try discriminate; auto;
          intros; contradiction.
      * apply String.eqb_neq in E2. repeat split; auto; intros; contradiction.
    + rewrite E1. apply String.eqb_neq in E1.
      repeat split; auto; intros; contradiction.
  - rewrite <- check_keys_Some.
    destruct (Session.check_keys _ _ _) as [message|]; split.
    + intros _. now exists message.
    + intros _. now exists message.
    + intros [m Hm]. discriminate.
    + intros [m Hm]. discriminate.
Qed.

Variable World : Type.
Variable stscreds_StdinTokenProvider : World -> World * (error + string).
Variable sts_GetSessionToken :
  Session.Config -> string -> string -> World
  -> World * (error + option Session.Value).

(** X17: [Retrieve] returns an error only for a [GetSessionToken] call
    that failed or that returned no credentials.  When the token code is
    to be read from the terminal and that fails, [Retrieve] returns empty
    credentials and a nil error, without calling STS. *)
Theorem Retrieve_errors (flags : Session.SessionFlags) (w : World) :
  let retrieve :=
    Session.Retrieve os_Getenv strings_TrimSpace World
      stscreds_StdinTokenProvider sts_GetSessionToken in
  (Session.MFATokenCode flags = "" ->
   forall w' err,
     stscreds_StdinTokenProvider w = (w', inl err) ->
     retrieve flags w
     = (w', Session.Return (Session.mkValue "" "" "", None)))
  /\ (forall w' value err,
        retrieve flags w = (w', Session.Return (value, Some err)) ->
        value = Session.mkValue "" "" ""
        /\ exists conf tokenCode w0,
            (sts_GetSessionToken conf (Session.MFASerialNumber flags)
               tokenCode w0 = (w', inl err)
             \/ (sts_GetSessionToken conf (Session.MFASerialNumber flags)
                   tokenCode w0 = (w', inr None)
                 /\ err = "Could not get credentials"))).
Proof.
  intros retrieve. subst retrieve. unfold Session.Retrieve. split.
  - intros Hcode w' err Hstdin. rewrite Hcode, Hstdin. reflexivity.
  - intros w' value err.
    assert (Htoken : forall tokenCode w0,
               match Session.NewConfig os_Getenv strings_TrimSpace
                       (Session.flag_Region flags) with
               | Session.Fatal message => (w0, Session.Fatal message)
               | Session.Return conf =>
                   match sts_GetSessionToken conf
                           (Session.MFASerialNumber flags) tokenCode w0 with
                   | (w1, inl err) =>
                       (w1, Session.Return
                              (Session.mkValue "" "" "", Some err))
                   | (w1, inr None) =>
                       (w1, Session.Return
                              (Session.mkValue "" "" "",
                               Some "Could not get credentials"))
                   | (w1, inr (Some credentials)) =>
                       (w1, Session.Return (credentials, None))
                   end
               end = (w', Session.Return (value, Some err)) ->
               value = Session.mkValue "" "" ""
               /\ exists conf tokenCode w0,
                   (sts_GetSessionToken conf (Session.MFASerialNumber flags)
                      tokenCode w0 = (w', inl err)
                    \/ (sts_GetSessionToken conf
                          (Session.MFASerialNumber flags) tokenCode w0
                        = (w', inr None)
                        /\ err = "Could not get credentials"))).
    { intros tokenCode w0.
      destruct (Session.NewConfig _ _ _) as [message|conf]; [discriminate|].
      destruct (sts_GetSessionToken conf (Session.MFASerialNumber flags)
                  tokenCode w0) as [w1 [e|[credentials|]]] eqn:Ests;
        intros Heq; inversion Heq; subst;
        (split; [reflexivity|]); exists conf, tokenCode, w0; auto. }
    destruct (String.eqb (Session.MFATokenCode flags) ""); [|apply Htoken].
    destruct (stscreds_StdinTokenProvider w) as [w1 [e|stdinCode]];
      [discriminate|apply Htoken].
Qed.

End SessionFacts.

(** ** aws-dump: KMS keys *)

Section KmsDumpFacts.

Variable Resource : Type.
Variable NewResource : string -> error + Resource.
Variable with_Metadata : Resource -> list (string * string) -> Resource.
Variable kms_DescribeKey : string -> error + KmsDump.KeyMetadata.

Local Open Scope list_scope.

Local Abbreviation page_fn :=
  (KmsDump.ListKeys_page Resource NewResource with_Metadata kms_DescribeKey).
Local Abbreviation is_described :=
  (KmsDump.described Resource NewResource kms_DescribeKey).
Local Abbreviation prefix_of :=
  (KmsDump.described_prefix Resource NewResource kms_DescribeKey).
Local Abbreviation report_of :=
  (KmsDump.reported Resource NewResource with_Metadata kms_DescribeKey).

Lemma ListKeys_page_spec keys :
  forall result,
    KmsDump.Resources Resource (fst (page_fn keys result))
    = KmsDump.Resources Resource result ++ flat_map report_of (prefix_of keys)
    /\ snd (page_fn keys result) = forallb is_described keys.
Proof.
  induction keys as [|key keys IH]; intros result.
  - simpl. now rewrite app_nil_r.
  - pose proof (eq_refl (is_described key)) as Hd.
    pose proof (eq_refl (report_of key)) as Hr.
    unfold KmsDump.described at 2 in Hd.
    unfold KmsDump.reported at 2 in Hr.
    cbn [KmsDump.ListKeys_page KmsDump.described_prefix forallb].
    destruct (NewResource (KmsDump.KeyArn key)) as [err|resource].
    { rewrite Hd. simpl. now rewrite app_nil_r. }
    destruct (kms_DescribeKey (KmsDump.KeyId key)) as [err|metadata].
    { rewrite Hd. simpl. now rewrite app_nil_r. }
    rewrite Hd. cbn [flat_map andb]. rewrite Hr.
    destruct (String.eqb (KmsDump.KeyManager metadata) _); simpl;
      [apply IH|].
    destruct (String.eqb (KmsDump.KeyState metadata) _); simpl; [apply IH|].
    destruct (IH (KmsDump.mkFetchResult Resource
                    (KmsDump.Resources Resource result
                     ++ [with_Metadata resource
                           [("Description", KmsDump.Description metadata);
                            ("KeyState", KmsDump.KeyState metadata);
                            ("KeyUsage", KmsDump.KeyUsage metadata)]])
                    (KmsDump.Error Resource result))) as [Hr' Hc].
    rewrite Hr', Hc. simpl. now rewrite <- app_assoc.
Qed.

Lemma described_prefix_app keys1 keys2 :
  prefix_of (keys1 ++ keys2)
  = if forallb is_described keys1 then keys1 ++ prefix_of keys2
    else prefix_of keys1.
Proof.
  induction keys1 as [|key keys1 IH]; simpl; [reflexivity|].
  destruct (is_described key); simpl; [|reflexivity].
  rewrite IH. now destruct (forallb is_described keys1).
Qed.

Lemma described_prefix_all keys :
  forallb is_described keys = true -> prefix_of keys = keys.
Proof.
  induction keys as [|key keys IH]; simpl; [reflexivity|].
  intros Hall. apply andb_true_iff in Hall as [Hkey Hall].
  now rewrite Hkey, (IH Hall).
Qed.

Lemma ListKeysPages_spec pages err :
  forall result,
    let res := KmsDump.ListKeysPages Resource pages err page_fn result in
    KmsDump.Resources Resource (fst res)
    = KmsDump.Resources Resource result
      ++ flat_map report_of (prefix_of (concat pages))
    /\ snd res
       = if forallb is_described (concat pages) then err else None.
Proof.
  induction pages as [|page pages IH]; intros result; simpl.
  - now rewrite app_nil_r.
  - destruct (ListKeys_page_spec page result) as [Hr Hc].
    destruct (page_fn page result) as [result1 continue]. simpl in Hr, Hc.
    rewrite described_prefix_app, forallb_app, <- Hc.
    destruct continue; simpl.
    + destruct (IH result1) as [Hr' He']. rewrite Hr', He', Hr.
      rewrite (described_prefix_all page (eq_sym Hc)).
      now rewrite flat_map_app, app_assoc.
    + now rewrite Hr.
Qed.

(** X18: [KMSListKeys] goes through the keys of the pages up to the first
    key for which [NewResource] or [DescribeKey] fails, and reports those
    that are neither managed by AWS nor pending deletion.  The error of
    that first failure is not reported: [Error] is what the paginator
    returned, the error of a failed request when every key was gone
    through and nil otherwise. *)
Theorem KMSListKeys_spec (pages : list (list KmsDump.KeyListEntry))
    (err : option error) :
  let result :=
    KmsDump.KMSListKeys Resource NewResource with_Metadata kms_DescribeKey
      pages err in
  KmsDump.Resources Resource result
  = flat_map report_of (prefix_of (concat pages))
  /\ KmsDump.Error Resource result
     = (if forallb is_described (concat pages) then err else None).
Proof.
  intros result. subst result. unfold KmsDump.KMSListKeys.
  destruct (ListKeysPages_spec pages err
              (KmsDump.mkFetchResult Resource [] None)) as [Hr He].
  destruct (KmsDump.ListKeysPages Resource pages err page_fn
              (KmsDump.mkFetchResult Resource [] None)) as [result returned].
  simpl in *. now split.
Qed.

End KmsDumpFacts.
